(** * The CLN HTLC interceptor of lspd (cln_interceptor.go)

    A shallow embedding of the interception engine: the onion payload
    rewriter [encodePayloadWithNextHop] with the BigSize/TLV wire format it
    relies on, the resolution builders, the failure code mapper, the
    per-HTLC handler and the connection loop with its two wait groups.

    Conventions.
    - A Go [uint64] is an [N] below [2^64]; arithmetic that can wrap is
      written with an explicit [mod].
    - A Go [[]byte] is a [list byte] (the 256-constructor type of the
      Standard Library), a Go [string] a [string].
    - A Go function that returns [(T, error)] returns an [outcome T]; a
      run-time panic (which a Go function does not return from) is the
      third constructor.
    - A [map[uint64][]byte] is a [gmap N (list byte)]. *)

From Stdlib Require Import NArith ZArith String Ascii List Lia.
From Stdlib Require Import Strings.Byte.
From stdpp Require Import base option list sorting gmap.

Open Scope N_scope.

(** ** Outcomes of Go calls *)

(** The errors of the io, sphinx and tlv packages that this code meets,
    and the wrappers [fmt.Errorf] builds around them in
    [encodePayloadWithNextHop]. *)
Inductive error : Type :=
  | EOF
  | ErrUnexpectedEOF
  | ErrVarIntNotCanonical
  | ErrStreamNotCanonical
  | ErrLength
  | InvalidByteError (c : ascii)
  | FailedToReadPayloadLength (cause : error)
  | FailedToDecodePayload (cause : error)
  | DecodeWithParsedTypesFailed (cause : error)
  | NewStreamError (cause : error).

Inductive outcome (A : Type) : Type :=
  | Ok (a : A)
  | Err (e : error)
  | Panic (msg : string).
Arguments Ok {A} a.
Arguments Err {A} e.
Arguments Panic {A} msg.

Definition obind {A B} (m : outcome A) (k : A -> outcome B) : outcome B :=
  match m with
  | Ok a => k a
  | Err e => Err e
  | Panic p => Panic p
  end.

(** [wrap w m] is the Go idiom [if err != nil { return nil, w(err) }]. *)
Definition wrap {A} (w : error -> error) (m : outcome A) : outcome A :=
  match m with
  | Ok a => Ok a
  | Err e => Err (w e)
  | Panic p => Panic p
  end.

(** [outcome] is a monad; stdpp's [x ← m; k] notation binds in it. *)
#[global] Instance outcome_ret : MRet outcome := fun A a => Ok a.
#[global] Instance outcome_bind : MBind outcome := fun A B k m => obind m k.

(** ** Machine integers and bytes *)

Definition MaxUint64 : N := 2 ^ 64 - 1.

(** [maxAlloc] of the Go runtime on a 64-bit Linux target, [1 << 48]
    bytes: [makeslice] panics when the size of the slice is beyond it,
    which covers every length that does not fit an [int]. *)
Definition maxAlloc : N := 2 ^ 48.

(** [uint8(v)]: the low byte of [v]. *)
Definition uint8 (v : N) : byte :=
  match Byte.of_N (v mod 256) with
  | Some b => b
  | None => x00
  end.

(** [binary.BigEndian.PutUintXX]: the [k] low bytes of [v], most
    significant first. *)
Fixpoint PutUint (k : nat) (v : N) : list byte :=
  match k with
  | O => []
  | S k' => uint8 (v / 256 ^ N.of_nat k') :: PutUint k' v
  end.

(** [binary.BigEndian.UintXX]: the number a byte string denotes. *)
Definition Uint (bs : list byte) : N :=
  fold_left (fun acc b => acc * 256 + Byte.to_N b) bs 0.

(** ** io.ReadFull on a byte buffer *)

(** [ReadFull n r] reads exactly [n] bytes from the buffer [r] and
    returns them with the rest of the buffer; [io.EOF] when [n > 0] and
    nothing is left, [io.ErrUnexpectedEOF] when fewer than [n] are. *)
Definition ReadFull (n : N) (r : list byte) : outcome (list byte * list byte) :=
  if n <=? N.of_nat (length r) then
    Ok (take (N.to_nat n) r, drop (N.to_nat n) r)
  else
    match r with
    | [] => Err EOF
    | _ :: _ => Err ErrUnexpectedEOF
    end.

(** ** BigSize variable-length integers (sphinx.ReadVarInt, tlv.WriteVarInt) *)

(** The multi-byte arm of [ReadVarInt]: [k] more bytes, big endian, and the
    value must not fit the shorter form ([rv <= bound] is not canonical).
    Any short read is reported as [io.ErrUnexpectedEOF]. *)
Definition readWide (k : N) (bound : N) (r : list byte) : outcome (N * list byte) :=
  match ReadFull k r with
  | Ok (bs, r') =>
      let rv := Uint bs in
      if rv <=? bound then Err ErrVarIntNotCanonical else Ok (rv, r')
  | Err _ => Err ErrUnexpectedEOF
  | Panic p => Panic p
  end.

Definition ReadVarInt (r : list byte) : outcome (N * list byte) :=
  match ReadFull 1 r with
  | Ok (d, r1) =>
      let discriminant := Uint d in
      if discriminant <? 0xfd then Ok (discriminant, r1)
      else if discriminant =? 0xfd then readWide 2 0xfc r1
      else if discriminant =? 0xfe then readWide 4 0xffff r1
      else readWide 8 0xffffffff r1
  | Err e => Err e
  | Panic p => Panic p
  end.

Definition WriteVarInt (val : N) : list byte :=
  if val <? 0xfd then [uint8 val]
  else if val <=? 0xffff then uint8 0xfd :: PutUint 2 val
  else if val <=? 0xffffffff then uint8 0xfe :: PutUint 4 val
  else uint8 0xff :: PutUint 8 val.

(** ** encoding/hex *)

Definition fromHexChar (c : ascii) : option N :=
  let n := N_of_ascii c in
  if (48 <=? n) && (n <=? 57) then Some (n - 48)
  else if (97 <=? n) && (n <=? 102) then Some (n - 97 + 10)
  else if (65 <=? n) && (n <=? 70) then Some (n - 65 + 10)
  else None.

(** [hex.DecodeString]: the bytes decoded so far come back together with
    the error, as in Go. *)
Fixpoint DecodeString (s : string) : list byte * option error :=
  match s with
  | EmptyString => ([], None)
  | String p EmptyString =>
      match fromHexChar p with
      | None => ([], Some (InvalidByteError p))
      | Some _ => ([], Some ErrLength)
      end
  | String p (String q s') =>
      match fromHexChar p, fromHexChar q with
      | None, _ => ([], Some (InvalidByteError p))
      | Some _, None => ([], Some (InvalidByteError q))
      | Some a, Some b =>
          let '(bs, err) := DecodeString s' in (uint8 (a * 16 + b) :: bs, err)
      end
  end.

Definition hextable (n : N) : ascii :=
  if n <? 10 then ascii_of_N (48 + n) else ascii_of_N (97 + (n - 10)).

Fixpoint EncodeToString (src : list byte) : string :=
  match src with
  | [] => EmptyString
  | v :: src' =>
      String (hextable (Byte.to_N v / 16))
        (String (hextable (Byte.to_N v mod 16)) (EncodeToString src'))
  end.

(** ** The tlv package: streams of (type, value) records *)

(** A record as [tlv.MapToRecords] builds it: a type and a static value. *)
Definition Record : Type := N * list byte.

Definition typ (rec : Record) : N := rec.1.
Definition value (rec : Record) : list byte := rec.2.

(** [Stream.DecodeWithParsedTypes] on a stream that knows no record type
    (the receiver here is [tlv.NewStream()]): every record read is
    unknown, its value is copied into the type map. [min] and [overflow]
    enforce strictly ascending types. This entry point applies no cap on
    the size of a record (the cap belongs to the P2P variant of the
    decoder). The value buffer is allocated with the declared length as
    its capacity before it is filled ([make([]byte, 0, length)]), which
    panics beyond [maxAlloc]. One
    round of the Go loop is one unfolding; a round consumes at least two
    bytes, so [length r] rounds always suffice and the last arm is never
    reached from [DecodeWithParsedTypes] (lemma [decode_total]). *)
Fixpoint decode (rounds : nat) (r : list byte) (min : N) (overflow : bool)
    (parsedTypes : gmap N (list byte)) : outcome (gmap N (list byte)) :=
  match rounds with
  | S rounds' =>
      match ReadVarInt r with
      | Err EOF => Ok parsedTypes
      | Err e => Err e
      | Panic p => Panic p
      | Ok (t, r1) =>
          if overflow || (t <? min) then Err ErrStreamNotCanonical
          else
            match ReadVarInt r1 with
            | Err EOF => Err ErrUnexpectedEOF
            | Err e => Err e
            | Panic p => Panic p
            | Ok (len, r2) =>
                if maxAlloc <? len then Panic "makeslice: cap out of range"
                else
                  match ReadFull len r2 with
                  | Ok (b, r3) =>
                      decode rounds' r3 ((t + 1) mod 2 ^ 64)
                        (overflow || (t =? MaxUint64))
                        (<[t := b]> parsedTypes)
                  | Err _ => Err ErrUnexpectedEOF
                  | Panic p => Panic p
                  end
            end
      end
  | O => Panic "decode: more rounds than bytes"
  end.

Definition DecodeWithParsedTypes (r : list byte) : outcome (gmap N (list byte)) :=
  decode (S (length r)) r 0 false ∅.

(** [tlv.SortRecords] orders by type. *)
Definition typ_le (a b : Record) : Prop := (typ a <= typ b)%N.

#[global] Instance typ_le_dec a b : Decision (typ_le a b).
Proof. unfold typ_le. apply N.le_dec. Defined.

(** [tlv.MapToRecords]: one static record per entry, sorted by type. *)
Definition MapToRecords (tlvMap : gmap N (list byte)) : list Record :=
  merge_sort typ_le (map_to_list tlvMap).

(** The canonical-order check of [tlv.NewStream]. *)
Fixpoint checkCanonical (records : list Record) (min : N) (overflow : bool) : bool :=
  match records with
  | [] => true
  | rec :: records' =>
      if overflow || (typ rec <? min) then false
      else checkCanonical records' ((typ rec + 1) mod 2 ^ 64)
             (overflow || (typ rec =? MaxUint64))
  end.

Definition NewStream (records : list Record) : outcome (list Record) :=
  if checkCanonical records 0 false then Ok records else Err ErrStreamNotCanonical.

(** [Stream.Encode]: type, length and value of every record in turn. *)
Definition encodeRecord (rec : Record) : list byte :=
  WriteVarInt (typ rec) ++ WriteVarInt (N.of_nat (length (value rec))) ++ value rec.

Definition Encode (records : list Record) : list byte :=
  flat_map encodeRecord records.

(** ** The payload rewriter *)

(** [record.NextHopOnionType]. *)
Definition NextHopOnionType : N := 6.

(** [record.NewNextHopIDRecord(&channelId).Encode]: the value alone, eight
    bytes big endian. *)
Definition encodeNextHop (channelId : N) : list byte := PutUint 8 channelId.

(** The loop of lines 287-294: every parsed entry is copied, the entry of
    the next-hop type with the new value in place of its own. *)
Definition uTlvMap (buf : list byte) (tlvMap : gmap N (list byte)) : gmap N (list byte) :=
  map_imap (fun t b => Some (if decide (t = NextHopOnionType) then buf else b)) tlvMap.

(** [make([]byte, n)] for a [uint64] length: [makeslice] panics on a
    length beyond [maxAlloc]. Within that bound the allocation is taken to
    succeed: it fails only on a machine that is out of memory, where the
    runtime ends the process with a fatal error. *)
Definition make (n : N) : outcome unit :=
  if maxAlloc <? n then Panic "makeslice: len out of range" else Ok ().

(** Lines 262-306. [bufReader] is what is left of the buffer after each
    read; the bytes left after the inner payload are not looked at. The
    two error arms of lines 283 and 302 are not modelled: writing to a
    [bytes.Buffer] does not fail. *)
Definition encodePayloadWithNextHop (payload : list byte) (channelId : N)
    : outcome (list byte) :=
  '(varInt, bufReader) ← wrap FailedToReadPayloadLength (ReadVarInt payload);
  _ ← make varInt;
  '(innerPayload, _) ← wrap FailedToDecodePayload (ReadFull varInt bufReader);
  tlvMap ← wrap DecodeWithParsedTypesFailed (DecodeWithParsedTypes innerPayload);
  let buf := encodeNextHop channelId in
  let tlvRecords := MapToRecords (uTlvMap buf tlvMap) in
  s ← wrap NewStreamError (NewStream tlvRecords);
  Ok (Encode s).

(** The bytes a hexadecimal string stands for. *)
Definition hexBytes (s : string) : list byte := (DecodeString s).1.

(** The parsing stage of [encodePayloadWithNextHop] on its own (lines
    263-279): the records of a payload that parses. *)
Definition parsePayload (payload : list byte) : outcome (gmap N (list byte)) :=
  '(varInt, bufReader) ← wrap FailedToReadPayloadLength (ReadVarInt payload);
  _ ← make varInt;
  '(innerPayload, _) ← wrap FailedToDecodePayload (ReadFull varInt bufReader);
  wrap DecodeWithParsedTypesFailed (DecodeWithParsedTypes innerPayload).

(** ** Messages of the plugin protocol and decisions *)

(** Modelled from the spec: the generated protobuf types of
    cln_plugin/proto are not part of this file. An HtlcEvent carries a
    correlation identifier, the HTLC details and the onion details; only
    the fields this file reads are kept. *)
Record proto_Onion : Type := {
  ShortChannelId : string;
  ForwardMsat : N;
  OutgoingCltvValue : N;
  Payload : string;
}.

Record proto_Htlc : Type := {
  AmountMsat : N;
  CltvExpiry : N;
  CltvExpiryRelative : N;
  PaymentHash : string;
}.

Record HtlcAccepted : Type := {
  Correlationid : string;
  Onion : proto_Onion;
  Htlc : proto_Htlc;
}.

(** Modelled from the spec: a Resolution echoes the correlation identifier
    and is one of: continue (empty, or with a forward channel and a
    replacement payload, both hex) or fail with a failure message. *)
Inductive isHtlcResolution_Outcome : Type :=
  | HtlcResolution_Continue (ForwardTo : option string) (NewPayload : option string)
  | HtlcResolution_Fail (FailureMessage : string).

Record HtlcResolution : Type := {
  Resolution_Correlationid : string;
  Outcome : isHtlcResolution_Outcome;
}.

(** Modelled from the spec: the action tag of a decision is declared next
    to the decision function, outside this file. It is an integer type with
    three named values; [INTERCEPT_OTHER] stands for every other value. *)
Inductive interceptAction : Type :=
  | INTERCEPT_RESUME
  | INTERCEPT_RESUME_WITH_ONION
  | INTERCEPT_FAIL_HTLC_WITH_CODE
  | INTERCEPT_OTHER (tag : Z).

(** Modelled from the spec: the internal failure reasons, an integer type
    with three named values; [FAILURE_OTHER] stands for every other
    value. *)
Inductive interceptFailureCode : Type :=
  | FAILURE_TEMPORARY_CHANNEL_FAILURE
  | FAILURE_TEMPORARY_NODE_FAILURE
  | FAILURE_INCORRECT_OR_UNKNOWN_PAYMENT_DETAILS
  | FAILURE_OTHER (code : N).

(** [wire.OutPoint]: a 32-byte transaction hash and an output index. *)
Record OutPoint : Type := {
  Hash : list byte;
  Index : N;
}.

(** Modelled from the spec: the decision, with the fields this file
    reads. *)
Record interceptResult : Type := {
  action : interceptAction;
  failureCode : interceptFailureCode;
  channelPoint : OutPoint;
  channelId : N;
}.

(** A channel of the node's graph, as [GetChannel] returns it. *)
Record PeerChannel : Type := {
  Source : string;
  Destination : string;
}.

(** ** lnwire.NewChanIDFromOutPoint *)

Definition xor8 (a b : byte) : byte := uint8 (N.lxor (Byte.to_N a) (Byte.to_N b)).

(** The hash copied into a 32-byte array, its last two bytes xored with the
    output index as a big-endian [uint16]. *)
Definition NewChanIDFromOutPoint (op : OutPoint) : list byte :=
  let cid := take 32 (Hash op ++ replicate 32 x00) in
  let buf := PutUint 2 (Index op) in
  take 30 cid ++ zip_with xor8 (drop 30 cid) buf.

(** ** The failure code mapper and the resolution builders *)

Definition mapFailureCode (original : interceptFailureCode) : string :=
  match original with
  | FAILURE_TEMPORARY_CHANNEL_FAILURE => "1007"
  | FAILURE_TEMPORARY_NODE_FAILURE => "2002"
  | FAILURE_INCORRECT_OR_UNKNOWN_PAYMENT_DETAILS => "400F"
  | FAILURE_OTHER _ => "1007"
  end.

Definition defaultResolution (request : HtlcAccepted) : HtlcResolution :=
  {| Resolution_Correlationid := Correlationid request;
     Outcome := HtlcResolution_Continue None None |}.

Definition failWithCode (request : HtlcAccepted) (code : interceptFailureCode)
    : HtlcResolution :=
  {| Resolution_Correlationid := Correlationid request;
     Outcome := HtlcResolution_Fail (mapFailureCode code) |}.

(** [resumeWithOnion] has no error result of its own: it answers with a
    resolution, or does not return when the rewriter panics. *)
Definition resumeWithOnion (request : HtlcAccepted) (interceptResult : interceptResult)
    : outcome HtlcResolution :=
  let '(payload, err) := DecodeString (Payload (Onion request)) in
  match err with
  | Some _ => Ok (failWithCode request FAILURE_TEMPORARY_CHANNEL_FAILURE)
  | None =>
      match encodePayloadWithNextHop payload (channelId interceptResult) with
      | Err _ => Ok (failWithCode request FAILURE_TEMPORARY_CHANNEL_FAILURE)
      | Panic p => Panic p
      | Ok newPayload =>
          let newPayloadStr := EncodeToString newPayload in
          let chanId := EncodeToString (NewChanIDFromOutPoint (channelPoint interceptResult)) in
          Ok {| Resolution_Correlationid := Correlationid request;
                Outcome := HtlcResolution_Continue (Some chanId) (Some newPayloadStr) |}
      end
  end.

(** ** The interceptor and its goroutines *)

(** Where the loop of [ClnHtlcInterceptor.intercept] stands: about to open
    the stream (line 93), at the top of the receive loop (line 106),
    blocked in [Recv] (line 123), in the deferred [doneWg.Wait()]
    (line 90), or returned. *)
Inductive loop_pc : Type := L_Connect | L_Receive | L_Recv | L_Draining | L_Returned.

(** Where a call of [Stop] stands: not called, flag set and blocked in
    [doneWg.Wait()] (line 201), about to cancel (line 204), returned. *)
Inductive stop_pc : Type := S_Idle | S_Waiting | S_Cancelling | S_Returned.

(** One call of the external decision function, with its arguments. *)
Record decision_call : Type := {
  call_nextHop : string;
  call_paymentHash : list byte;
  call_amount : N;
  call_cltv : N;
  call_expiry : N;
}.

(** The fields of [ClnHtlcInterceptor] that change, the local [inited] of
    the loop, the two program counters, the handlers spawned and not yet
    run, what was sent on the stream (oldest first), the calls made to the
    decision function, and the panic that ended the process, if any. *)
Record system : Type := mkSystem {
  stopRequested : bool;
  cancelled : bool;
  initWg : Z;
  doneWg : Z;
  inited : bool;
  loop : loop_pc;
  stop : stop_pc;
  pending : list (HtlcAccepted * string);
  sent : list HtlcResolution;
  decided : list decision_call;
  crashed : option string;
}.

Definition set_stopRequested (b : bool) (s : system) : system :=
  mkSystem b (cancelled s) (initWg s) (doneWg s) (inited s) (loop s) (stop s)
    (pending s) (sent s) (decided s) (crashed s).
Definition set_cancelled (b : bool) (s : system) : system :=
  mkSystem (stopRequested s) b (initWg s) (doneWg s) (inited s) (loop s) (stop s)
    (pending s) (sent s) (decided s) (crashed s).
Definition set_initWg (n : Z) (s : system) : system :=
  mkSystem (stopRequested s) (cancelled s) n (doneWg s) (inited s) (loop s) (stop s)
    (pending s) (sent s) (decided s) (crashed s).
Definition set_doneWg (n : Z) (s : system) : system :=
  mkSystem (stopRequested s) (cancelled s) (initWg s) n (inited s) (loop s) (stop s)
    (pending s) (sent s) (decided s) (crashed s).
Definition set_inited (b : bool) (s : system) : system :=
  mkSystem (stopRequested s) (cancelled s) (initWg s) (doneWg s) b (loop s) (stop s)
    (pending s) (sent s) (decided s) (crashed s).
Definition set_loop (pc : loop_pc) (s : system) : system :=
  mkSystem (stopRequested s) (cancelled s) (initWg s) (doneWg s) (inited s) pc (stop s)
    (pending s) (sent s) (decided s) (crashed s).
Definition set_stop (pc : stop_pc) (s : system) : system :=
  mkSystem (stopRequested s) (cancelled s) (initWg s) (doneWg s) (inited s) (loop s) pc
    (pending s) (sent s) (decided s) (crashed s).
Definition set_pending (p : list (HtlcAccepted * string)) (s : system) : system :=
  mkSystem (stopRequested s) (cancelled s) (initWg s) (doneWg s) (inited s) (loop s) (stop s)
    p (sent s) (decided s) (crashed s).
Definition set_sent (l : list HtlcResolution) (s : system) : system :=
  mkSystem (stopRequested s) (cancelled s) (initWg s) (doneWg s) (inited s) (loop s) (stop s)
    (pending s) l (decided s) (crashed s).
Definition set_decided (l : list decision_call) (s : system) : system :=
  mkSystem (stopRequested s) (cancelled s) (initWg s) (doneWg s) (inited s) (loop s) (stop s)
    (pending s) (sent s) l (crashed s).

(** A panic in any goroutine ends the process. *)
Definition panic (msg : string) (s : system) : system :=
  mkSystem (stopRequested s) (cancelled s) (initWg s) (doneWg s) (inited s) (loop s) (stop s)
    (pending s) (sent s) (decided s) (Some msg).

(** Sequencing inside one goroutine: nothing runs after a panic. *)
Definition andThen (s : system) (k : system -> system) : system :=
  match crashed s with
  | Some _ => s
  | None => k s
  end.

Notation "s >> k" := (andThen s k) (at level 50, left associativity).

(** [sync.WaitGroup]: [Add] moves the counter, a counter below zero
    panics; [Done] is [Add(-1)]. *)
Definition WaitGroup_Add (delta : Z) (counter : Z) : outcome Z :=
  if (counter + delta <? 0)%Z then Panic "sync: negative WaitGroup counter"
  else Ok (counter + delta)%Z.

Definition doneWg_Add (delta : Z) (s : system) : system :=
  match WaitGroup_Add delta (doneWg s) with
  | Ok n => set_doneWg n s
  | Err _ => s
  | Panic p => panic p s
  end.

Definition initWg_Done (s : system) : system :=
  match WaitGroup_Add (-1) (initWg s) with
  | Ok n => set_initWg n s
  | Err _ => s
  | Panic p => panic p s
  end.

(** [interceptorClient.Send]: the result of the call is not looked at. *)
Definition Send (res : HtlcResolution) (s : system) : system :=
  set_sent (sent s ++ [res]) s.

Section Interceptor.

(** The external decision function [intercept(client, config, nextHop,
    paymentHash, amount, cltv, expiry)]. *)
Variable intercept : string -> list byte -> N -> N -> N -> interceptResult.

(** The channel graph query [i.client.client.GetChannel] with its two
    results, and [i.config.NodePubkey]. *)
Variable GetChannel : string -> list PeerChannel * option error.
Variable NodePubkey : string.

(** The scan of lines 140-149. *)
Fixpoint scanChannels (channels : list PeerChannel) (nextHop : string) : string :=
  match channels with
  | [] => nextHop
  | c :: channels' =>
      if String.eqb (Source c) NodePubkey then Destination c
      else if String.eqb (Destination c) NodePubkey then Source c
      else scanChannels channels' nextHop
  end.

(** Lines 137-150: the next-hop label. *)
Definition nextHopLabel (request : HtlcAccepted) : string :=
  let nextHop := "<unknown>"%string in
  let '(channels, err) := GetChannel (ShortChannelId (Onion request)) in
  match err with
  | Some _ => scanChannels channels nextHop
  | None => nextHop
  end.

(** Lines 172-186: the call of the decision function and the switch on
    its action, up to the [Send]. *)
Definition decide_and_send (request : HtlcAccepted) (nextHop : string)
    (paymentHash : list byte) (s : system) : system :=
  let interceptResult :=
    intercept nextHop paymentHash (ForwardMsat (Onion request))
      (OutgoingCltvValue (Onion request)) (CltvExpiry (Htlc request)) in
  let s := set_decided (decided s ++
    [{| call_nextHop := nextHop; call_paymentHash := paymentHash;
        call_amount := ForwardMsat (Onion request);
        call_cltv := OutgoingCltvValue (Onion request);
        call_expiry := CltvExpiry (Htlc request) |}]) s in
  match action interceptResult with
  | INTERCEPT_RESUME_WITH_ONION =>
      match resumeWithOnion request interceptResult with
      | Ok res => Send res s
      | Err _ => s
      | Panic p => panic p s
      end
  | INTERCEPT_FAIL_HTLC_WITH_CODE =>
      Send (failWithCode request (failureCode interceptResult)) s
  | INTERCEPT_RESUME | INTERCEPT_OTHER _ =>
      Send (defaultResolution request) s
  end.

(** Lines 166-189: the body of the goroutine started for one event. *)
Definition handler (request : HtlcAccepted) (nextHop : string) (s : system) : system :=
  let '(paymentHash, err) := DecodeString (PaymentHash (Htlc request)) in
  (match err with
   | Some _ => Send (defaultResolution request) s >> doneWg_Add (-1)
   | None => s
   end)
  >> decide_and_send request nextHop paymentHash
  >> doneWg_Add (-1).

(** The deferred function of the loop (lines 85-91), up to its
    [doneWg.Wait()]. *)
Definition loop_exit (s : system) : system :=
  (if inited s then s else initWg_Done s) >> set_loop L_Draining.

(** What can happen next. The environment chooses whether a stream
    opens, what [Recv] returns, which goroutine runs. *)
Inductive event : Type :=
  | Connect (ok : bool)
  | Enter
  | Recv (request : option HtlcAccepted)
  | Drained
  | Handle (k : nat)
  | StopFlag
  | StopWaited
  | StopCancel.

(** One step of the system; [None] when the event cannot happen in this
    state.
    - [Connect ok], lines 94-104: return if the context is cancelled,
      else open the stream; on failure back off and retry.
    - [Enter], lines 107-121: return if the context is cancelled,
      release the readiness barrier the first time, return if a stop
      is requested, else block in [Recv].
    - [Recv None], lines 124-136 and 192: an error breaks to the outer
      loop. [Recv (Some request)], lines 137-165: label, [doneWg.Add(1)]
      and a new goroutine.
    - [Drained]: the deferred [doneWg.Wait()] returns.
    - [Handle k]: the k-th goroutine not yet run runs.
    - [StopFlag], [StopWaited], [StopCancel]: lines 198, 201, 204. *)
Definition step (s : system) (e : event) : option system :=
  match crashed s with
  | Some _ => None
  | None =>
      match e with
      | Connect ok =>
          match loop s with
          | L_Connect =>
              if cancelled s then Some (loop_exit s)
              else if ok then Some (set_loop L_Receive s)
              else Some s
          | _ => None
          end
      | Enter =>
          match loop s with
          | L_Receive =>
              if cancelled s then Some (loop_exit s)
              else
                Some ((if inited s then s else initWg_Done (set_inited true s))
                      >> (fun s => if stopRequested s then loop_exit s
                                   else set_loop L_Recv s))
          | _ => None
          end
      | Recv None =>
          match loop s with
          | L_Recv => Some (set_loop L_Connect s)
          | _ => None
          end
      | Recv (Some request) =>
          match loop s with
          | L_Recv =>
              let nextHop := nextHopLabel request in
              Some (doneWg_Add 1 s
                    >> (fun s => set_loop L_Receive
                                   (set_pending (pending s ++ [(request, nextHop)]) s)))
          | _ => None
          end
      | Drained =>
          match loop s with
          | L_Draining => if (doneWg s =? 0)%Z then Some (set_loop L_Returned s) else None
          | _ => None
          end
      | Handle k =>
          match pending s !! k with
          | Some (request, nextHop) =>
              Some (handler request nextHop (set_pending (delete k (pending s)) s))
          | None => None
          end
      | StopFlag =>
          match stop s with
          | S_Idle => Some (set_stop S_Waiting (set_stopRequested true s))
          | _ => None
          end
      | StopWaited =>
          match stop s with
          | S_Waiting => if (doneWg s =? 0)%Z then Some (set_stop S_Cancelling s) else None
          | _ => None
          end
      | StopCancel =>
          match stop s with
          | S_Cancelling => Some (set_stop S_Returned (set_cancelled true s))
          | _ => None
          end
      end
  end.

(** A schedule runs from a state, if each of its events can happen. *)
Fixpoint run (s : system) (tr : list event) : option system :=
  match tr with
  | [] => Some s
  | e :: tr' =>
      match step s e with
      | Some s' => run s' tr'
      | None => None
      end
  end.

End Interceptor.

(** The state in which [Start] calls the loop: [NewClnHtlcInterceptor] did
    [initWg.Add(1)], [Start] set [stopRequested] to false and made a fresh
    context. *)
Definition started : system :=
  {| stopRequested := false; cancelled := false; initWg := 1; doneWg := 0;
     inited := false; loop := L_Connect; stop := S_Idle; pending := [];
     sent := []; decided := []; crashed := None |}.

(** ** Vocabulary of the statements *)

(** What one record contributes to the type map. *)
Definition record_insert (m : gmap N (list byte)) (rec : Record) : gmap N (list byte) :=
  <[typ rec := value rec]> m.

(** Records the decoder can take in: a 64-bit type and a value whose
    length is within [maxAlloc]. *)
Definition wire_record (rec : Record) : Prop :=
  typ rec < 2 ^ 64 /\ N.of_nat (length (value rec)) <= maxAlloc.

(** Strictly ascending types. *)
Definition typ_lt (a b : Record) : Prop := typ a < typ b.

(** Type maps the wire format can carry. *)
Definition wire_map (m : gmap N (list byte)) : Prop :=
  map_Forall (fun t v => t < 2 ^ 64 /\ N.of_nat (length v) <= maxAlloc) m.

(** A record with the next-hop value put in place of its own when it is
    the next-hop record. *)
Definition setNextHop (buf : list byte) (rec : Record) : Record :=
  (typ rec, if decide (typ rec = NextHopOnionType) then buf else value rec).

(** The rewriter always leaves a next-hop record behind: whatever the
    payload parses to, the output decodes to the parsed map with the
    next-hop type set (replaced or inserted) to the new value. *)
Definition sets_next_hop (payload : list byte) (channelId : N) : Prop :=
  forall tlvMap, parsePayload payload = Ok tlvMap ->
    exists out, encodePayloadWithNextHop payload channelId = Ok out
      /\ DecodeWithParsedTypes out
         = Ok (<[NextHopOnionType := encodeNextHop channelId]> tlvMap).

(** An event whose onion payload declares [2^64 - 1] inner bytes and
    carries none. *)
Definition oversized_event : HtlcAccepted :=
  {| Correlationid := "c-1";
     Onion := {| ShortChannelId := "1x1x1"; ForwardMsat := 1000;
                 OutgoingCltvValue := 40; Payload := "ffffffffffffffffff" |};
     Htlc := {| AmountMsat := 1001; CltvExpiry := 50; CltvExpiryRelative := 10;
                PaymentHash := "00" |} |}.

(** An event whose payment hash is not hexadecimal. *)
Definition unparsable_event : HtlcAccepted :=
  {| Correlationid := "c-2";
     Onion := {| ShortChannelId := "1x1x1"; ForwardMsat := 1000;
                 OutgoingCltvValue := 40; Payload := "" |};
     Htlc := {| AmountMsat := 1001; CltvExpiry := 50; CltvExpiryRelative := 10;
                PaymentHash := "zz" |} |}.

(** An ordinary event: a hexadecimal payment hash and a payload of two
    records, the second the next-hop record. *)
Definition plain_event : HtlcAccepted :=
  {| Correlationid := "c-3";
     Onion := {| ShortChannelId := "1x1x1"; ForwardMsat := 1000;
                 OutgoingCltvValue := 40;
                 Payload := "0d0201aa06080000000000000001" |};
     Htlc := {| AmountMsat := 1001; CltvExpiry := 50; CltvExpiryRelative := 10;
                PaymentHash := "00ff" |} |}.

(** A decision function that answers every call with the same decision. *)
Definition always (a : interceptAction) : string -> list byte -> N -> N -> N -> interceptResult :=
  fun _ _ _ _ _ =>
    {| action := a; failureCode := FAILURE_TEMPORARY_NODE_FAILURE;
       channelPoint := {| Hash := replicate 32 x01; Index := 1 |};
       channelId := 258 |}.

(** The state of a handler that was just dispatched: one event in
    flight. *)
Definition one_in_flight : system := set_doneWg 1 started.

(** A channel graph that knows the channel of every request, with the local
    node as its source, and answers without error. *)
Definition graph_knows_peer : string -> list PeerChannel * option error :=
  fun _ => ([{| Source := "02local"; Destination := "03peer" |}], None).

(** A channel graph whose query always fails. *)
Definition graph_fails : string -> list PeerChannel * option error :=
  fun _ => ([], Some EOF).

(** The events of a schedule that are steps of [Stop], and those that
    deliver an HTLC event to the loop. *)
Definition is_stop_event (e : event) : bool :=
  match e with
  | StopFlag | StopWaited | StopCancel => true
  | _ => false
  end.

Definition is_delivery (e : event) : bool :=
  match e with
  | Recv (Some _) => true
  | _ => false
  end.

(** The steps of [Stop] a call has taken when it stands at [pc]. *)
Definition stop_history (pc : stop_pc) : list event :=
  match pc with
  | S_Idle => []
  | S_Waiting => [StopFlag]
  | S_Cancelling => [StopFlag; StopWaited]
  | S_Returned => [StopFlag; StopWaited; StopCancel]
  end.

(** The loop has left its [for] and is in, or past, the deferred
    function. *)
Definition loop_exited (s : system) : bool :=
  match loop s with
  | L_Draining | L_Returned => true
  | _ => false
  end.


(** The readiness barrier is released only after a stream was opened. *)
Definition barrier_needs_open
    (intercept : string -> list byte -> N -> N -> N -> interceptResult)
    (GetChannel : string -> list PeerChannel * option error)
    (NodePubkey : string) : Prop :=
  forall tr s,
    run intercept GetChannel NodePubkey started tr = Some s ->
    initWg s = 0%Z -> Connect true ∈ tr.

(** What a step of a handler leaves alone. *)
Definition same_control (s s' : system) : Prop :=
  stopRequested s' = stopRequested s /\ cancelled s' = cancelled s
  /\ initWg s' = initWg s /\ inited s' = inited s /\ loop s' = loop s
  /\ stop s' = stop s /\ pending s' = pending s.

(** What holds of every state a run reaches: once [Stop] has begun the
    flag is set; the context is cancelled only by a [Stop] that returned;
    the readiness barrier is released exactly when the loop has entered
    its receive loop or left; the in-flight counter is not negative. *)
Definition consistent (s : system) : Prop :=
  (stop s <> S_Idle -> stopRequested s = true)
  /\ (cancelled s = true -> stop s = S_Returned)
  /\ initWg s = (if inited s || loop_exited s then 0 else 1)%Z
  /\ (0 <= doneWg s)%Z.


(** ** Vocabulary for the rest of the file *)

(** A character [fromHexChar] accepts, and a string made of such
    characters only. *)
Definition is_hex (c : ascii) : bool :=
  match fromHexChar c with Some _ => true | None => false end.

Fixpoint all_hex (s : string) : bool :=
  match s with
  | EmptyString => true
  | String c s' => is_hex c && all_hex s'
  end.

(** The resolution carries the correlation identifier of the event. *)
Definition answers (request : HtlcAccepted) (res : HtlcResolution) : Prop :=
  Resolution_Correlationid res = Correlationid request.

(** The events a schedule delivers to the loop, in order. *)
Fixpoint deliveries (tr : list event) : list HtlcAccepted :=
  match tr with
  | [] => []
  | Recv (Some request) :: tr' => request :: deliveries tr'
  | _ :: tr' => deliveries tr'
  end.





(** The interceptor [NewClnHtlcInterceptor] returns (lines 47-54): the
    readiness barrier is armed with [initWg.Add(1)] and no loop runs. *)
Definition created : system :=
  {| stopRequested := false; cancelled := false; initWg := 1; doneWg := 0;
     inited := false; loop := L_Returned; stop := S_Idle; pending := [];
     sent := []; decided := []; crashed := None |}.

(** [Start] (lines 57-80): a dial error is returned and nothing else
    happens; otherwise the interceptor gets a fresh context,
    [stopRequested] is reset and [intercept()] is called, whose local
    [inited] starts false. The result is the state the loop starts from;
    no call of [Stop] is under way then. The two wait groups are not
    touched: [initWg.Add(1)] is in the constructor only. *)
Definition Start (dial : option error) (s : system) : outcome system :=
  match dial with
  | Some err => Err err
  | None =>
      Ok (set_loop L_Connect (set_inited false (set_stop S_Idle
            (set_cancelled false (set_stopRequested false s)))))
  end.

(** A loop that was started with the readiness barrier already released
    and no handler left over: it has received nothing, it is still in its
    [for], and it has panicked at the barrier unless it has not come to it
    yet. *)
Definition stale (tr : list event) (s : system) : Prop :=
  initWg s = 0%Z /\ pending s = [] /\ deliveries tr = []
  /\ (loop s = L_Connect \/ loop s = L_Receive)
  /\ ((crashed s = None /\ inited s = false /\ Enter ∉ tr)
      \/ crashed s = Some "sync: negative WaitGroup counter"%string).

(** The state a first run ends in when [Stop] is called before any event
    was delivered and the loop has returned. *)
Definition stopped : system :=
  {| stopRequested := true; cancelled := true; initWg := 0; doneWg := 0;
     inited := true; loop := L_Returned; stop := S_Returned; pending := [];
     sent := []; decided := []; crashed := None |}.


(** A record header that asks the decoder for a value buffer beyond
    [maxAlloc]: the records [l] come first, in canonical order, then a
    type [t] above theirs and a declared length [len] beyond the limit. *)
Definition oversized_record (inner : list byte) : Prop :=
  exists l t len rest,
    inner = Encode l ++ WriteVarInt t ++ WriteVarInt len ++ rest
    /\ StronglySorted typ_lt (l ++ [(t, [])]) /\ Forall wire_record l
    /\ t < 2 ^ 64 /\ maxAlloc < len < 2 ^ 64.


(* ================================================================= *)
(** * Properties *)

(** ** Bytes and big-endian integers *)

Lemma uint8_to_N v : Byte.to_N (uint8 v) = v mod 256.
Proof.
  unfold uint8.
  pose proof (Byte.to_of_N_option_map (v mod 256)) as H.
  assert (v mod 256 < 256) as Hlt by (apply N.mod_upper_bound; lia).
  destruct (Byte.of_N (v mod 256)) as [b|] eqn:E.
  - by apply Byte.to_of_N.
  - simpl in H. destruct (N.leb_spec (v mod 256) 255); [done | lia].
Qed.

Lemma to_N_lt b : Byte.to_N b < 256.
Proof. pose proof (Byte.to_N_bounded b). lia. Qed.

Lemma uint8_of_to_N b : uint8 (Byte.to_N b) = b.
Proof.
  unfold uint8. rewrite N.mod_small by apply to_N_lt.
  by rewrite Byte.of_to_N.
Qed.

Lemma to_N_inj b1 b2 : Byte.to_N b1 = Byte.to_N b2 -> b1 = b2.
Proof.
  intros H. rewrite <- (uint8_of_to_N b1), <- (uint8_of_to_N b2). by rewrite H.
Qed.

Lemma length_PutUint k v : length (PutUint k v) = k.
Proof. induction k; simpl; auto. Qed.

Lemma fold_Uint_acc bs acc :
  fold_left (fun a b => a * 256 + Byte.to_N b) bs acc
  = acc * 256 ^ N.of_nat (length bs) + Uint bs.
Proof.
  unfold Uint. revert acc. induction bs as [|b bs IH]; intros acc.
  - simpl. lia.
  - cbn [fold_left length]. rewrite IH, (IH (0 * 256 + _)).
    rewrite Nat2N.inj_succ, N.pow_succ_r'. lia.
Qed.

Lemma Uint_cons b bs :
  Uint (b :: bs) = Byte.to_N b * 256 ^ N.of_nat (length bs) + Uint bs.
Proof. unfold Uint at 1. cbn [fold_left]. rewrite fold_Uint_acc. lia. Qed.

Lemma Uint_lt bs : Uint bs < 256 ^ N.of_nat (length bs).
Proof.
  induction bs as [|b bs IH].
  - cbn. lia.
  - rewrite Uint_cons. cbn [length]. rewrite Nat2N.inj_succ, N.pow_succ_r'.
    pose proof (to_N_lt b). nia.
Qed.

Lemma Uint_PutUint k v : Uint (PutUint k v) = v mod 256 ^ N.of_nat k.
Proof.
  induction k as [|k IH].
  - cbn. by rewrite N.mod_1_r.
  - cbn [PutUint]. rewrite Uint_cons, length_PutUint, IH, uint8_to_N.
    rewrite Nat2N.inj_succ, N.pow_succ_r', (N.mul_comm 256).
    rewrite N.Div0.mod_mul_r. lia.
Qed.

Lemma Uint_inj bs1 bs2 :
  length bs1 = length bs2 -> Uint bs1 = Uint bs2 -> bs1 = bs2.
Proof.
  revert bs2. induction bs1 as [|b1 bs1 IH]; intros [|b2 bs2] Hlen HU;
    try discriminate; [done|].
  injection Hlen as Hlen. rewrite !Uint_cons, Hlen in HU.
  pose proof (Uint_lt bs1) as H1. pose proof (Uint_lt bs2) as H2.
  rewrite Hlen in H1.
  set (p := 256 ^ N.of_nat (length bs2)) in *.
  assert (Byte.to_N b1 = Byte.to_N b2) as Hb by nia.
  f_equal; [by apply to_N_inj | apply IH; [done | nia]].
Qed.

Lemma PutUint_Uint bs : PutUint (length bs) (Uint bs) = bs.
Proof.
  apply Uint_inj; [apply length_PutUint|].
  rewrite Uint_PutUint. apply N.mod_small, Uint_lt.
Qed.

(** ** Reading from a buffer *)

Lemma ReadFull_app a b : ReadFull (N.of_nat (length a)) (a ++ b) = Ok (a, b).
Proof.
  unfold ReadFull. rewrite length_app, Nat2N.id.
  destruct (N.leb_spec (N.of_nat (length a)) (N.of_nat (length a + length b))); [|lia].
  by rewrite take_app_length, drop_app_length.
Qed.

Lemma ReadFull_Ok n r a b :
  ReadFull n r = Ok (a, b) -> r = a ++ b /\ N.of_nat (length a) = n.
Proof.
  unfold ReadFull. destruct (N.leb_spec n (N.of_nat (length r))) as [Hle|Hgt].
  - intros [= <- <-]. split; [by rewrite take_drop|].
    rewrite length_take. lia.
  - by destruct r.
Qed.

Lemma ReadFull_short n r :
  N.of_nat (length r) < n -> exists e, ReadFull n r = Err e.
Proof.
  intros H. unfold ReadFull.
  destruct (N.leb_spec n (N.of_nat (length r))); [lia|].
  destruct r; eauto.
Qed.

(** ** BigSize integers: reading inverts writing, and only canonical
    encodings are read *)

Lemma readWide_PutUint (k : nat) bound v rest :
  bound < v -> v < 256 ^ N.of_nat k ->
  readWide (N.of_nat k) bound (PutUint k v ++ rest) = Ok (v, rest).
Proof.
  intros Hb Hv. unfold readWide.
  rewrite <- (length_PutUint k v) at 1. rewrite ReadFull_app.
  rewrite Uint_PutUint, N.mod_small by done.
  by destruct (N.leb_spec v bound); [lia|].
Qed.

Lemma ReadFull_1_cons b r : ReadFull 1 (b :: r) = Ok ([b], r).
Proof. apply (ReadFull_app [b] r). Qed.

Lemma Uint_1 b : Uint [b] = Byte.to_N b.
Proof. unfold Uint. cbn [fold_left]. lia. Qed.

Lemma ReadVarInt_WriteVarInt v rest :
  v < 2 ^ 64 -> ReadVarInt (WriteVarInt v ++ rest) = Ok (v, rest).
Proof.
  intros Hv. unfold ReadVarInt, WriteVarInt.
  destruct (N.ltb_spec v 0xfd) as [H1|H1];
    [|destruct (N.leb_spec v 0xffff) as [H2|H2];
      [|destruct (N.leb_spec v 0xffffffff) as [H3|H3]]];
    cbn [app]; rewrite ReadFull_1_cons, Uint_1, uint8_to_N.
  - rewrite N.mod_small by lia.
    by destruct (N.ltb_spec v 0xfd); [|lia].
  - cbn. apply (readWide_PutUint 2); [lia | change (256 ^ N.of_nat 2) with 65536; lia].
  - cbn. apply (readWide_PutUint 4); [lia | change (256 ^ N.of_nat 4) with 4294967296; lia].
  - cbn. apply (readWide_PutUint 8); [lia | change (256 ^ N.of_nat 8) with (2 ^ 64); lia].
Qed.

Lemma readWide_Ok (k : nat) bound r v rest :
  readWide (N.of_nat k) bound r = Ok (v, rest) ->
  r = PutUint k v ++ rest /\ bound < v /\ v < 256 ^ N.of_nat k.
Proof.
  unfold readWide. destruct (ReadFull (N.of_nat k) r) as [[bs r']| |] eqn:E; try done.
  apply ReadFull_Ok in E as [-> Hlen]. apply Nat2N.inj in Hlen.
  destruct (N.leb_spec (Uint bs) bound); [done|].
  intros [= <- <-]. subst k. rewrite PutUint_Uint.
  split_and!; [done | done | apply Uint_lt].
Qed.

Lemma ReadVarInt_Ok r v rest :
  ReadVarInt r = Ok (v, rest) -> r = WriteVarInt v ++ rest /\ v < 2 ^ 64.
Proof.
  destruct r as [|b r1]; [done|].
  unfold ReadVarInt. rewrite ReadFull_1_cons, Uint_1.
  pose proof (to_N_lt b) as Hb.
  destruct (N.ltb_spec (Byte.to_N b) 0xfd) as [H1|H1].
  { intros [= <- <-]. unfold WriteVarInt.
    destruct (N.ltb_spec (Byte.to_N b) 0xfd); [|lia].
    rewrite uint8_of_to_N. split; [done | lia]. }
  destruct (N.eqb_spec (Byte.to_N b) 0xfd) as [H2|H2];
    [|destruct (N.eqb_spec (Byte.to_N b) 0xfe) as [H3|H3]].
  - intros H. apply (readWide_Ok 2) in H as (-> & Hlo & Hhi).
    change (256 ^ N.of_nat 2) with 65536 in Hhi.
    unfold WriteVarInt.
    destruct (N.ltb_spec v 0xfd); [lia|]. destruct (N.leb_spec v 0xffff); [|lia].
    rewrite <- H2, uint8_of_to_N. split; [done | lia].
  - intros H. apply (readWide_Ok 4) in H as (-> & Hlo & Hhi).
    change (256 ^ N.of_nat 4) with 4294967296 in Hhi.
    unfold WriteVarInt.
    destruct (N.ltb_spec v 0xfd); [lia|]. destruct (N.leb_spec v 0xffff); [lia|].
    destruct (N.leb_spec v 0xffffffff); [|lia].
    rewrite <- H3, uint8_of_to_N. split; [done | lia].
  - intros H. apply (readWide_Ok 8) in H as (-> & Hlo & Hhi).
    change (256 ^ N.of_nat 8) with (2 ^ 64) in Hhi.
    unfold WriteVarInt.
    destruct (N.ltb_spec v 0xfd); [lia|]. destruct (N.leb_spec v 0xffff); [lia|].
    destruct (N.leb_spec v 0xffffffff); [lia|].
    assert (Byte.to_N b = 0xff) as Hff by lia.
    rewrite <- Hff, uint8_of_to_N. split; [done | lia].
Qed.

Lemma WriteVarInt_nonempty v : WriteVarInt v <> [].
Proof. unfold WriteVarInt. by repeat case_match. Qed.

Lemma length_WriteVarInt_pos v : (0 < length (WriteVarInt v))%nat.
Proof. pose proof (WriteVarInt_nonempty v). destruct (WriteVarInt v); [done | simpl; lia]. Qed.

Lemma ReadVarInt_EOF r : ReadVarInt r = Err EOF <-> r = [].
Proof.
  split; [|by intros ->].
  destruct r as [|b r1]; [done|]. unfold ReadVarInt.
  rewrite ReadFull_1_cons. unfold readWide.
  repeat case_match; done.
Qed.

Lemma ReadVarInt_shorter r v rest :
  ReadVarInt r = Ok (v, rest) -> (length rest < length r)%nat.
Proof.
  intros H. apply ReadVarInt_Ok in H as [-> _].
  pose proof (WriteVarInt_nonempty v). rewrite length_app.
  destruct (WriteVarInt v); [done | simpl; lia].
Qed.

Lemma ReadFull_shorter n r a b :
  ReadFull n r = Ok (a, b) -> (length b <= length r)%nat.
Proof. intros H. apply ReadFull_Ok in H as [-> _]. rewrite length_app. lia. Qed.

(** ** The stream decoder *)

Lemma Encode_cons rec l : Encode (rec :: l) = encodeRecord rec ++ Encode l.
Proof. done. Qed.

(** The number of rounds given to [decode] does not matter once it exceeds
    the number of bytes: the decoder is total. *)
Lemma decode_rounds n1 n2 r min overflow acc :
  (length r < n1)%nat -> (length r < n2)%nat ->
  decode n1 r min overflow acc = decode n2 r min overflow acc.
Proof.
  revert n2 r min overflow acc.
  induction n1 as [|n1 IH]; intros [|n2] r min overflow acc H1 H2; try lia.
  cbn [decode].
  destruct (ReadVarInt r) as [[t r1]| |] eqn:Et; [|done..].
  destruct (overflow || (t <? min)); [done|].
  destruct (ReadVarInt r1) as [[len r2]| |] eqn:El; [|done..].
  destruct (maxAlloc <? len); [done|].
  destruct (ReadFull len r2) as [[b r3]| |] eqn:Ev; [|done..].
  apply ReadVarInt_shorter in Et, El. apply ReadFull_shorter in Ev.
  apply IH; lia.
Qed.

Lemma decode_total rounds r min overflow acc :
  (length r < rounds)%nat ->
  decode rounds r min overflow acc <> Panic "decode: more rounds than bytes".
Proof.
  revert r min overflow acc.
  induction rounds as [|n IH]; intros r min overflow acc Hlen; [lia|].
  cbn [decode].
  destruct (ReadVarInt r) as [[t r1]|e|] eqn:Et.
  - destruct (overflow || (t <? min)); [done|].
    destruct (ReadVarInt r1) as [[len r2]|e|] eqn:El.
    + destruct (maxAlloc <? len); [done|].
      destruct (ReadFull len r2) as [[b r3]| |] eqn:Ev; [|done|].
      * apply ReadVarInt_shorter in Et, El. apply ReadFull_shorter in Ev.
        apply IH. lia.
      * unfold ReadFull in Ev. by repeat case_match.
    + by destruct e.
    + unfold ReadVarInt, readWide, ReadFull in El. by repeat case_match.
  - by destruct e.
  - unfold ReadVarInt, readWide, ReadFull in Et. by repeat case_match.
Qed.

Lemma DecodeWithParsedTypes_total r :
  DecodeWithParsedTypes r <> Panic "decode: more rounds than bytes".
Proof. apply decode_total. lia. Qed.

(** Whatever decodes is the canonical encoding of a strictly ascending
    list of records, and the type map holds exactly them. *)
Lemma decode_Ok rounds r min overflow acc m :
  decode rounds r min overflow acc = Ok m ->
  exists l, r = Encode l /\ checkCanonical l min overflow = true
    /\ Forall wire_record l /\ m = fold_left record_insert l acc.
Proof.
  revert r min overflow acc.
  induction rounds as [|n IH]; intros r min overflow acc; [done|].
  cbn [decode].
  destruct (ReadVarInt r) as [[t r1]|e|] eqn:Et; [| |done].
  2:{ destruct e; try done. intros [= <-].
      apply ReadVarInt_EOF in Et as ->. by exists []. }
  destruct (overflow || (t <? min)) eqn:Ec; [done|].
  destruct (ReadVarInt r1) as [[len r2]|e|] eqn:El; [|by destruct e|done].
  destruct (N.ltb_spec maxAlloc len) as [|Hlen]; [done|].
  destruct (ReadFull len r2) as [[b r3]| |] eqn:Ev; [|done..].
  intros H. apply IH in H as (l & -> & Hc & Hw & ->).
  apply ReadVarInt_Ok in Et as [-> Ht], El as [-> _].
  apply ReadFull_Ok in Ev as [-> <-].
  exists ((t, b) :: l). split_and!.
  - by rewrite Encode_cons; unfold encodeRecord; cbn [typ value fst snd]; rewrite <- !app_assoc.
  - cbn [checkCanonical typ fst]. by rewrite Ec.
  - constructor; [by split | done].
  - done.
Qed.

Lemma decode_Encode l : forall rounds min overflow acc,
  checkCanonical l min overflow = true -> Forall wire_record l ->
  (length (Encode l) < rounds)%nat ->
  decode rounds (Encode l) min overflow acc = Ok (fold_left record_insert l acc).
Proof.
  induction l as [|[t b] l IH]; intros [|n] min overflow acc Hc Hw Hr; try (simpl in Hr; lia).
  { done. }
  apply Forall_cons in Hw as [[Ht Hb] Hw]. cbn [typ value fst snd] in Ht, Hb.
  cbn [checkCanonical typ fst] in Hc.
  destruct (overflow || (t <? min)) eqn:Ec; [done|].
  rewrite Encode_cons in Hr |- *. unfold encodeRecord in Hr |- *.
  cbn [typ value fst snd] in Hr |- *. rewrite !length_app in Hr.
  cbn [decode]. rewrite <- !app_assoc.
  rewrite ReadVarInt_WriteVarInt by done. rewrite Ec.
  rewrite ReadVarInt_WriteVarInt by (eapply N.le_lt_trans; [exact Hb | done]).
  destruct (N.ltb_spec maxAlloc (N.of_nat (length b))); [lia|].
  rewrite ReadFull_app.
  pose proof (length_WriteVarInt_pos t).
  apply IH; [done | done | lia].
Qed.

(** ** Canonical order *)

#[local] Instance typ_le_total : Total typ_le.
Proof. intros a b. unfold typ_le. lia. Qed.

#[local] Instance typ_le_trans : Transitive typ_le.
Proof. intros a b c. unfold typ_le. lia. Qed.

(** The check of [NewStream] accepts exactly the strictly ascending lists
    (of 64-bit types) that start at [min] or above. *)
Lemma checkCanonical_sorted l : forall min overflow,
  checkCanonical l min overflow = true -> Forall wire_record l ->
  StronglySorted typ_lt l /\ Forall (fun rec => min <= typ rec) l
  /\ (l = [] \/ overflow = false).
Proof.
  induction l as [|rec l IH]; intros min overflow Hc Hw.
  { split_and!; [constructor | constructor | by left]. }
  apply Forall_cons in Hw as [[Ht _] Hw].
  cbn [checkCanonical] in Hc.
  destruct overflow; [done|]. cbn [orb] in Hc.
  destruct (N.ltb_spec (typ rec) min) as [|Hmin]; [done|].
  apply IH in Hc as (Hs & Hm & Ho); [|done].
  assert (Forall (typ_lt rec) l) as Hlt.
  { destruct Ho as [->|Ho]; [constructor|].
    destruct (N.eqb_spec (typ rec) MaxUint64) as [|Hne]; [done|].
    unfold MaxUint64 in Hne.
    rewrite N.mod_small in Hm by lia.
    eapply Forall_impl; [exact Hm|]. unfold typ_lt. intros; cbv beta in *; lia. }
  split_and!; [by constructor| |by right].
  constructor; [done|].
  eapply Forall_impl; [exact Hlt|]. unfold typ_lt. intros; cbv beta in *; lia.
Qed.

Lemma sorted_checkCanonical l : forall min,
  StronglySorted typ_lt l -> Forall (fun rec => typ rec < 2 ^ 64) l ->
  Forall (fun rec => min <= typ rec) l ->
  checkCanonical l min false = true.
Proof.
  induction l as [|rec l IH]; intros min Hs Hb Hm; [done|].
  apply StronglySorted_inv in Hs as [Hs Hlt].
  apply Forall_cons in Hb as [Ht Hb]. apply Forall_cons in Hm as [Hmin Hm].
  cbn [checkCanonical orb].
  destruct (N.ltb_spec (typ rec) min); [lia|].
  destruct l as [|rec' l]; [done|].
  pose proof (Forall_inv Hlt) as Hlt'. pose proof (Forall_inv Hb) as Ht'.
  unfold typ_lt in Hlt'. cbv beta in Ht'.
  destruct (N.eqb_spec (typ rec) MaxUint64) as [He|_];
    [unfold MaxUint64 in He; lia|].
  apply IH; [done | done |].
  rewrite N.mod_small by lia.
  eapply Forall_impl; [exact Hlt|]. unfold typ_lt. intros; cbv beta in *; lia.
Qed.

Lemma sorted_lt_NoDup l : StronglySorted typ_lt l -> NoDup l.*1.
Proof.
  induction 1 as [|rec l Hs IH Hlt]; [constructor|].
  rewrite fmap_cons. constructor; [|done].
  intros (rec' & Heq & Hin)%list_elem_of_fmap.
  rewrite Forall_forall in Hlt. specialize (Hlt _ Hin).
  unfold typ_lt, typ in Hlt. rewrite Heq in Hlt. lia.
Qed.

Lemma sorted_le_lt l : StronglySorted typ_le l -> NoDup l.*1 -> StronglySorted typ_lt l.
Proof.
  induction 1 as [|rec l Hs IH Hle]; [constructor|].
  rewrite fmap_cons. intros [Hnin Hnd]%NoDup_cons.
  constructor; [by apply IH|].
  rewrite Forall_forall in Hle |- *. intros rec' Hin.
  specialize (Hle _ Hin). unfold typ_le, typ_lt, typ in *.
  assert (rec.1 <> rec'.1); [|lia].
  intros Heq. apply Hnin. rewrite Heq. by apply list_elem_of_fmap_2.
Qed.

Lemma sorted_lt_le l : StronglySorted typ_lt l -> StronglySorted typ_le l.
Proof.
  induction 1 as [|rec l Hs IH Hlt]; constructor; [done|].
  eapply Forall_impl; [exact Hlt|]. unfold typ_lt, typ_le. intros; cbv beta in *; lia.
Qed.

(** ** [MapToRecords] *)

Lemma MapToRecords_perm m : MapToRecords m ≡ₚ map_to_list m.
Proof. apply merge_sort_Permutation. Qed.

Lemma MapToRecords_sorted m : StronglySorted typ_lt (MapToRecords m).
Proof.
  apply sorted_le_lt.
  - apply StronglySorted_merge_sort; apply _.
  - rewrite MapToRecords_perm. apply NoDup_fst_map_to_list.
Qed.

Lemma elem_of_MapToRecords m t v : (t, v) ∈ MapToRecords m <-> m !! t = Some v.
Proof. rewrite MapToRecords_perm. apply elem_of_map_to_list. Qed.

(** Sorting the records of a map built from a strictly ascending list
    gives the list back. *)
Lemma MapToRecords_list_to_map l :
  StronglySorted typ_lt l -> MapToRecords (list_to_map l) = l.
Proof.
  intros Hs. pose proof (sorted_lt_NoDup _ Hs) as Hnd.
  assert (MapToRecords (list_to_map l) ≡ₚ l) as Hp.
  { rewrite MapToRecords_perm. by apply map_to_list_to_map. }
  apply (StronglySorted_unique_strong typ_le); [| |by apply sorted_lt_le|done].
  - intros [t1 v1] [t2 v2] H1 H2 Hle1 Hle2.
    unfold typ_le, typ in Hle1, Hle2. cbn [fst] in Hle1, Hle2.
    assert (t1 = t2) as -> by lia. f_equal.
    rewrite <- Hp in H2. apply elem_of_MapToRecords in H1, H2. congruence.
  - apply sorted_lt_le, MapToRecords_sorted.
Qed.

Lemma fold_record_insert l : forall acc,
  NoDup l.*1 -> fold_left record_insert l acc = list_to_map l ∪ acc.
Proof.
  induction l as [|[t v] l IH]; intros acc Hnd.
  { cbn. by rewrite (left_id_L ∅ (∪)). }
  rewrite fmap_cons in Hnd. apply NoDup_cons in Hnd as [Hnin Hnd].
  cbn [fold_left list_to_map foldr]. rewrite IH by done.
  unfold record_insert. cbn [typ value fst snd uncurry].
  rewrite <- insert_union_l. symmetry. apply insert_union_r.
  by apply not_elem_of_list_to_map_1.
Qed.

(** ** Decoding and encoding are inverse on canonical streams *)

Lemma wire_map_records m : wire_map m <-> Forall wire_record (MapToRecords m).
Proof.
  unfold wire_map. rewrite map_Forall_to_list, MapToRecords_perm.
  apply Forall_proper; [|done]. by intros [t v].
Qed.

Lemma DecodeWithParsedTypes_Ok r m :
  DecodeWithParsedTypes r = Ok m ->
  exists l, r = Encode l /\ StronglySorted typ_lt l /\ Forall wire_record l
    /\ m = list_to_map l.
Proof.
  intros (l & -> & Hc & Hw & ->)%decode_Ok.
  apply checkCanonical_sorted in Hc as (Hs & _ & _); [|done].
  exists l. split_and!; [done..|].
  rewrite fold_record_insert by by apply sorted_lt_NoDup.
  by rewrite (right_id_L ∅ (∪)).
Qed.

Lemma DecodeWithParsedTypes_Encode l :
  StronglySorted typ_lt l -> Forall wire_record l ->
  DecodeWithParsedTypes (Encode l) = Ok (list_to_map l).
Proof.
  intros Hs Hw. unfold DecodeWithParsedTypes.
  rewrite decode_Encode; [|apply sorted_checkCanonical|done|lia].
  - rewrite fold_record_insert by by apply sorted_lt_NoDup.
    by rewrite (right_id_L ∅ (∪)).
  - done.
  - eapply Forall_impl; [exact Hw|]. by intros rec [? _].
  - apply Forall_forall. intros; lia.
Qed.

(** Encoding the sorted records of a type map and decoding the bytes gives
    the map back. *)
Lemma DecodeWithParsedTypes_MapToRecords m :
  wire_map m -> DecodeWithParsedTypes (Encode (MapToRecords m)) = Ok m.
Proof.
  intros Hw. rewrite DecodeWithParsedTypes_Encode.
  - f_equal. rewrite <- (list_to_map_to_list m) at 2.
    apply list_to_map_proper; [|apply MapToRecords_perm].
    rewrite MapToRecords_perm. apply NoDup_fst_map_to_list.
  - apply MapToRecords_sorted.
  - by apply wire_map_records.
Qed.

(** A stream that decodes is the canonical encoding of its own type map. *)
Lemma DecodeWithParsedTypes_canonical r m :
  DecodeWithParsedTypes r = Ok m -> r = Encode (MapToRecords m) /\ wire_map m.
Proof.
  intros (l & -> & Hs & Hw & ->)%DecodeWithParsedTypes_Ok.
  rewrite wire_map_records, MapToRecords_list_to_map by done. done.
Qed.

(** ** The rewritten type map *)

Lemma uTlvMap_alter buf m :
  uTlvMap buf m = alter (fun _ => buf) NextHopOnionType m.
Proof.
  apply map_eq. intros t. unfold uTlvMap.
  rewrite map_lookup_imap, lookup_alter.
  destruct (decide (NextHopOnionType = t)) as [<-|Hne].
  - destruct (m !! NextHopOnionType); [|done]. cbn. by rewrite decide_True.
  - destruct (m !! t); [|done]. cbn. by rewrite decide_False.
Qed.

Lemma uTlvMap_wire cid m : wire_map m -> wire_map (uTlvMap (encodeNextHop cid) m).
Proof.
  unfold wire_map. intros Hw t v. unfold uTlvMap. rewrite map_lookup_imap.
  destruct (m !! t) as [v0|] eqn:E; [|done]. cbn [mbind option_bind]. intros [= <-].
  destruct (Hw _ _ E) as [Ht Hv]. split; [done|].
  case_decide; [|done]. unfold encodeNextHop. by rewrite length_PutUint.
Qed.

Lemma NewStream_MapToRecords m :
  wire_map m -> NewStream (MapToRecords m) = Ok (MapToRecords m).
Proof.
  intros Hw. unfold NewStream. rewrite sorted_checkCanonical; [done| | |].
  - apply MapToRecords_sorted.
  - apply wire_map_records in Hw. eapply Forall_impl; [exact Hw|]. by intros rec [? _].
  - apply Forall_forall. intros; lia.
Qed.

(** The rewriter is its parsing stage followed by the re-encoding of the
    updated map; the re-encoding cannot fail. *)
Lemma encodePayloadWithNextHop_parse payload cid :
  encodePayloadWithNextHop payload cid =
  m ← parsePayload payload; Ok (Encode (MapToRecords (uTlvMap (encodeNextHop cid) m))).
Proof.
  unfold encodePayloadWithNextHop, parsePayload, mbind, outcome_bind.
  destruct (ReadVarInt payload) as [[varInt bufReader]| |]; [|done..].
  cbn [wrap obind].
  destruct (make varInt); [|done..]. cbn [obind].
  destruct (ReadFull varInt bufReader) as [[inner trailing]| |]; [|done..].
  cbn [wrap obind].
  destruct (DecodeWithParsedTypes inner) as [m| |] eqn:Ed; [|done..].
  cbn [wrap obind].
  apply DecodeWithParsedTypes_canonical in Ed as [_ Hw].
  by rewrite NewStream_MapToRecords by by apply uTlvMap_wire.
Qed.

Lemma setNextHop_sorted buf l :
  StronglySorted typ_lt l -> StronglySorted typ_lt (setNextHop buf <$> l).
Proof. by apply StronglySorted_fmap. Qed.

Lemma uTlvMap_list_to_map buf l :
  uTlvMap buf (list_to_map l) = list_to_map (setNextHop buf <$> l).
Proof.
  induction l as [|[t v] l IH]; [apply map_imap_empty|].
  rewrite fmap_cons. cbn [list_to_map foldr uncurry setNextHop typ value fst snd].
  rewrite <- IH. unfold uTlvMap. by rewrite map_imap_insert.
Qed.

Lemma MapToRecords_uTlvMap buf l :
  StronglySorted typ_lt l ->
  MapToRecords (uTlvMap buf (list_to_map l)) = setNextHop buf <$> l.
Proof.
  intros Hs. rewrite uTlvMap_list_to_map.
  by apply MapToRecords_list_to_map, setNextHop_sorted.
Qed.

(** ** The parsing stage *)

Lemma make_Ok n : make n = Ok () <-> n <= maxAlloc.
Proof. unfold make. destruct (N.ltb_spec maxAlloc n); split; (done || lia). Qed.

(** A payload parses exactly when it is a canonical length prefix, that
    many bytes holding a canonical record stream, and anything after. *)
Lemma parsePayload_Ok payload m :
  parsePayload payload = Ok m <->
  exists inner trailing,
    payload = WriteVarInt (N.of_nat (length inner)) ++ inner ++ trailing
    /\ N.of_nat (length inner) <= maxAlloc
    /\ DecodeWithParsedTypes inner = Ok m.
Proof.
  unfold parsePayload, mbind, outcome_bind. split.
  - destruct (ReadVarInt payload) as [[varInt bufReader]| |] eqn:Ev; [|done..].
    cbn [wrap obind].
    destruct (make varInt) as [[]| |] eqn:Em; [|done..]. cbn [obind].
    destruct (ReadFull varInt bufReader) as [[inner trailing]| |] eqn:Er; [|done..].
    cbn [wrap obind].
    destruct (DecodeWithParsedTypes inner) as [m'| |] eqn:Ed; [|done..].
    intros [= <-].
    apply ReadVarInt_Ok in Ev as [-> _]. apply ReadFull_Ok in Er as [-> <-].
    apply make_Ok in Em. by exists inner, trailing.
  - intros (inner & trailing & -> & Hlen & Hd).
    rewrite ReadVarInt_WriteVarInt by (eapply N.le_lt_trans; [exact Hlen | done]).
    cbn [wrap obind]. apply make_Ok in Hlen as ->. cbn [obind].
    rewrite ReadFull_app. cbn [wrap obind]. by rewrite Hd.
Qed.

(** ** The claims about the rewriter *)

(** C2, as the code has it. For every payload that parses, the rewriter
    succeeds and its output is the encoding, in strictly ascending type
    order, of the parsed records with one change: a next-hop record that is
    present gets the 8-byte big-endian channel identifier as its value.
    Every other record, of whatever type, keeps its value, and a payload
    without a next-hop record is re-encoded without one. Decoding the
    output gives exactly that record set. *)
Theorem encodePayloadWithNextHop_replaces payload channelId tlvMap :
  parsePayload payload = Ok tlvMap ->
  exists out newMap,
    encodePayloadWithNextHop payload channelId = Ok out
    /\ out = Encode (MapToRecords newMap)
    /\ StronglySorted typ_lt (MapToRecords newMap)
    /\ DecodeWithParsedTypes out = Ok newMap
    /\ (forall t, t <> NextHopOnionType -> newMap !! t = tlvMap !! t)
    /\ (is_Some (tlvMap !! NextHopOnionType) ->
        newMap !! NextHopOnionType = Some (PutUint 8 channelId))
    /\ (tlvMap !! NextHopOnionType = None -> newMap !! NextHopOnionType = None).
Proof.
  intros Hp. rewrite encodePayloadWithNextHop_parse, Hp.
  apply parsePayload_Ok in Hp as (inner & trailing & _ & _ & Hd).
  apply DecodeWithParsedTypes_canonical in Hd as [_ Hw].
  eexists _, (uTlvMap (encodeNextHop channelId) tlvMap).
  split_and!; [done | done | apply MapToRecords_sorted | | | |].
  - by apply DecodeWithParsedTypes_MapToRecords, uTlvMap_wire.
  - intros t Ht. by rewrite uTlvMap_alter, lookup_alter_ne.
  - intros [v Hv]. by rewrite uTlvMap_alter, lookup_alter_eq, Hv.
  - intros Hv. by rewrite uTlvMap_alter, lookup_alter_eq, Hv.
Qed.

Lemma encodePayloadWithNextHop_replaces_witness :
  exists out newMap,
    encodePayloadWithNextHop (hexBytes "0f0201aa060800000000000000010900ffee") 258 = Ok out
    /\ out = Encode (MapToRecords newMap)
    /\ StronglySorted typ_lt (MapToRecords newMap)
    /\ DecodeWithParsedTypes out = Ok newMap
    /\ (forall t, t <> NextHopOnionType ->
        newMap !! t = ({[2 := [xaa]; 6 := PutUint 8 1; 9 := [] ]} : gmap N (list byte)) !! t)
    /\ (is_Some (({[2 := [xaa]; 6 := PutUint 8 1; 9 := [] ]} : gmap N (list byte))
                   !! NextHopOnionType) ->
        newMap !! NextHopOnionType = Some (PutUint 8 258))
    /\ (({[2 := [xaa]; 6 := PutUint 8 1; 9 := [] ]} : gmap N (list byte))
           !! NextHopOnionType = None ->
        newMap !! NextHopOnionType = None).
Proof.
  apply (encodePayloadWithNextHop_replaces
           (hexBytes "0f0201aa060800000000000000010900ffee") 258
           {[2 := [xaa]; 6 := PutUint 8 1; 9 := [] ]}).
  vm_compute. reflexivity.
Defined.

(** C2 as stated fails: a payload that parses to the single record of type
    2 is re-encoded without any next-hop record. *)
Lemma encodePayloadWithNextHop_no_insert :
  ~ sets_next_hop (hexBytes "030201aa") 7.
Proof.
  intros H.
  destruct (H {[2 := [xaa]]}) as (out & Hout & Hdec); [by vm_compute|].
  vm_compute in Hout. injection Hout as <-.
  vm_compute in Hdec. discriminate.
Qed.

(** The rewritten stream never equals the payload it was made from: the
    payload starts with a length, the output with a record type. *)
Lemma Encode_setNextHop_ne cid l trailing :
  StronglySorted typ_lt l -> Forall wire_record l ->
  N.of_nat (length (Encode l)) <= maxAlloc ->
  Encode (setNextHop (encodeNextHop cid) <$> l)
  <> WriteVarInt (N.of_nat (length (Encode l))) ++ Encode l ++ trailing.
Proof.
  intros Hs Hw HL Heq.
  assert (forall n, n <= maxAlloc -> n < 2 ^ 64) as Hint
    by (intros n Hn; eapply N.le_lt_trans; [exact Hn | done]).
  destruct l as [|[t v] l'].
  { pose proof (WriteVarInt_nonempty (N.of_nat (length (Encode (@nil Record))))) as Hne.
    cbn in Heq. by destruct (WriteVarInt 0). }
  apply Forall_cons in Hw as [[Ht Hv] _]. cbn [typ value fst snd] in Ht, Hv.
  match type of HL with ?n <= _ => remember n as L eqn:HLdef in * end.
  rewrite fmap_cons, !Encode_cons in Heq. rewrite Encode_cons in HLdef.
  unfold encodeRecord, setNextHop in Heq, HLdef.
  cbn [typ value fst snd] in Heq, HLdef.
  set (v' := if decide (t = NextHopOnionType) then encodeNextHop cid else v) in Heq.
  assert (N.of_nat (length v') <= maxAlloc) as Hv'.
  { subst v'. case_decide; [|done]. unfold encodeNextHop. by rewrite length_PutUint. }
  rewrite <- !app_assoc in Heq.
  apply (f_equal ReadVarInt) in Heq.
  rewrite !ReadVarInt_WriteVarInt in Heq by auto.
  injection Heq as Ht' Heq.
  apply (f_equal ReadVarInt) in Heq.
  rewrite !ReadVarInt_WriteVarInt in Heq by auto.
  injection Heq as Hlen _.
  rewrite !length_app in HLdef.
  pose proof (length_WriteVarInt_pos t).
  pose proof (length_WriteVarInt_pos (N.of_nat (length v))).
  subst v'. case_decide as Hd.
  - unfold encodeNextHop in Hlen. rewrite length_PutUint in Hlen.
    unfold NextHopOnionType in Hd. lia.
  - lia.
Qed.

(** C4, at the payload [ff ff ff ff ff ff ff ff ff]: the leading varint
    declares [2^64 - 1] inner bytes and none follows. The rewriter does not
    return a decode error: allocating the inner buffer panics, so
    [resumeWithOnion] builds no resolution at all, and when the decision is
    to resume with a new onion the goroutine that handles the event ends
    the process with nothing sent. *)
Theorem oversized_length_panics channelId interceptResult :
  ReadVarInt (hexBytes "ffffffffffffffffff") = Ok (MaxUint64, [])
  /\ encodePayloadWithNextHop (hexBytes "ffffffffffffffffff") channelId
     = Panic "makeslice: len out of range"
  /\ resumeWithOnion oversized_event interceptResult
     = Panic "makeslice: len out of range"
  /\ exists s,
       run (always INTERCEPT_RESUME_WITH_ONION) graph_fails "02local" started
         [Connect true; Enter; Recv (Some oversized_event); Handle 0] = Some s
       /\ sent s = [] /\ crashed s = Some "makeslice: len out of range"%string.
Proof.
  split_and!; [by vm_compute..|].
  eexists. split_and!; by vm_compute.
Qed.

(** The same for every declared length beyond [maxAlloc], whatever
    follows it. *)
Lemma long_payload_panics payload channelId varInt rest :
  ReadVarInt payload = Ok (varInt, rest) -> maxAlloc < varInt ->
  encodePayloadWithNextHop payload channelId = Panic "makeslice: len out of range".
Proof.
  intros Hv Hlong. unfold encodePayloadWithNextHop, mbind, outcome_bind.
  rewrite Hv. cbn [wrap obind]. unfold make.
  by destruct (N.ltb_spec maxAlloc varInt); [|lia].
Qed.

(** Below that bound the short read is reported: a declared length of at
    most [maxAlloc] that exceeds the bytes available is a decode error, and
    [resumeWithOnion] answers with a fail resolution of code 1007. *)
Lemma short_payload_decode_error payload channelId varInt rest :
  ReadVarInt payload = Ok (varInt, rest) ->
  N.of_nat (length rest) < varInt -> varInt <= maxAlloc ->
  exists e, encodePayloadWithNextHop payload channelId = Err (FailedToDecodePayload e).
Proof.
  intros Hv Hshort Hint. unfold encodePayloadWithNextHop, mbind, outcome_bind.
  rewrite Hv. cbn [wrap obind]. apply make_Ok in Hint as ->. cbn [obind].
  destruct (ReadFull_short _ _ Hshort) as [e ->]. by exists e.
Qed.

Lemma short_payload_fails request interceptResult payload varInt rest :
  DecodeString (Payload (Onion request)) = (payload, None) ->
  ReadVarInt payload = Ok (varInt, rest) ->
  N.of_nat (length rest) < varInt -> varInt <= maxAlloc ->
  resumeWithOnion request interceptResult
  = Ok {| Resolution_Correlationid := Correlationid request;
          Outcome := HtlcResolution_Fail "1007" |}.
Proof.
  intros Hhex Hv Hshort Hint. unfold resumeWithOnion. rewrite Hhex.
  destruct (short_payload_decode_error _ (channelId interceptResult) _ _ Hv Hshort Hint)
    as [e ->].
  done.
Qed.

(** C10. Whenever the rewriter succeeds, the payload was a length prefix,
    that many inner bytes and possibly more; the output is the record
    stream alone (it decodes as one, with no prefix in front), it does not
    depend on the bytes after the inner payload, it is the inner payload
    itself when there is no next-hop record to replace, and it is never the
    same byte string as the input. *)
Theorem encodePayloadWithNextHop_bare_stream payload channelId out :
  encodePayloadWithNextHop payload channelId = Ok out ->
  exists inner trailing tlvMap,
    payload = WriteVarInt (N.of_nat (length inner)) ++ inner ++ trailing
    /\ DecodeWithParsedTypes inner = Ok tlvMap
    /\ out = Encode (MapToRecords (uTlvMap (encodeNextHop channelId) tlvMap))
    /\ DecodeWithParsedTypes out = Ok (uTlvMap (encodeNextHop channelId) tlvMap)
    /\ (forall trailing',
         encodePayloadWithNextHop
           (WriteVarInt (N.of_nat (length inner)) ++ inner ++ trailing') channelId
         = Ok out)
    /\ (tlvMap !! NextHopOnionType = None -> out = inner)
    /\ out <> payload.
Proof.
  rewrite encodePayloadWithNextHop_parse.
  destruct (parsePayload payload) as [tlvMap| |] eqn:Hp; [|done..].
  intros [= <-].
  apply parsePayload_Ok in Hp as (inner & trailing & -> & Hint & Hd).
  exists inner, trailing, tlvMap.
  pose proof Hd as [Hcanon Hw]%DecodeWithParsedTypes_canonical.
  split_and!; [done | done | done | | | |].
  - by apply DecodeWithParsedTypes_MapToRecords, uTlvMap_wire.
  - intros trailing'. rewrite encodePayloadWithNextHop_parse.
    assert (parsePayload (WriteVarInt (N.of_nat (length inner)) ++ inner ++ trailing')
            = Ok tlvMap) as ->; [|done].
    apply parsePayload_Ok. by exists inner, trailing'.
  - intros Hnone. rewrite Hcanon. do 2 f_equal.
    rewrite uTlvMap_alter. apply map_eq. intros t. rewrite lookup_alter.
    case_decide as Ht; [|done]. subst t. by rewrite Hnone.
  - apply DecodeWithParsedTypes_Ok in Hd as (l & -> & Hs & Hwl & ->).
    rewrite MapToRecords_uTlvMap by done.
    by apply Encode_setNextHop_ne.
Qed.

Lemma encodePayloadWithNextHop_bare_stream_witness :
  encodePayloadWithNextHop (hexBytes "0f0201aa060800000000000000010900ffee") 258
  = Ok (hexBytes "0201aa060800000000000001020900")
  /\ exists inner trailing tlvMap,
    hexBytes "0f0201aa060800000000000000010900ffee"
    = WriteVarInt (N.of_nat (length inner)) ++ inner ++ trailing
    /\ DecodeWithParsedTypes inner = Ok tlvMap
    /\ hexBytes "0201aa060800000000000001020900"
       = Encode (MapToRecords (uTlvMap (encodeNextHop 258) tlvMap))
    /\ DecodeWithParsedTypes (hexBytes "0201aa060800000000000001020900")
       = Ok (uTlvMap (encodeNextHop 258) tlvMap)
    /\ (forall trailing',
         encodePayloadWithNextHop
           (WriteVarInt (N.of_nat (length inner)) ++ inner ++ trailing') 258
         = Ok (hexBytes "0201aa060800000000000001020900"))
    /\ (tlvMap !! NextHopOnionType = None
        -> hexBytes "0201aa060800000000000001020900" = inner)
    /\ hexBytes "0201aa060800000000000001020900"
       <> hexBytes "0f0201aa060800000000000000010900ffee".
Proof.
  split; [by vm_compute|].
  apply (encodePayloadWithNextHop_bare_stream
           (hexBytes "0f0201aa060800000000000000010900ffee") 258).
  by vm_compute.
Defined.

(** ** The failure code mapper and the handler *)

(** C8. The mapper returns a code for every reason, without an error
    result: 1007, 2002 and 400F for the three named reasons and 1007 for
    every other value. *)
Theorem mapFailureCode_total :
  mapFailureCode FAILURE_TEMPORARY_CHANNEL_FAILURE = "1007"%string
  /\ mapFailureCode FAILURE_TEMPORARY_NODE_FAILURE = "2002"%string
  /\ mapFailureCode FAILURE_INCORRECT_OR_UNKNOWN_PAYMENT_DETAILS = "400F"%string
  /\ (forall code, mapFailureCode (FAILURE_OTHER code) = "1007"%string)
  /\ (forall original,
        mapFailureCode original = "1007"%string
        \/ mapFailureCode original = "2002"%string
        \/ mapFailureCode original = "400F"%string).
Proof.
  split_and!; try done.
  intros []; cbn; auto.
Qed.

Lemma crashed_Send res s : crashed (Send res s) = crashed s.
Proof. done. Qed.

Lemma sent_doneWg_Add delta s : sent (doneWg_Add delta s) = sent s.
Proof. unfold doneWg_Add. by destruct (WaitGroup_Add delta (doneWg s)). Qed.

Lemma sent_andThen_doneWg_Add delta s : sent (s >> doneWg_Add delta) = sent s.
Proof. unfold andThen. destruct (crashed s); [done | apply sent_doneWg_Add]. Qed.

(** The switch of the handler on an action that is neither
    resume-with-onion nor fail-with-code. *)
Lemma decide_and_send_default intercept request nextHop paymentHash s :
  action (intercept nextHop paymentHash (ForwardMsat (Onion request))
            (OutgoingCltvValue (Onion request)) (CltvExpiry (Htlc request)))
    <> INTERCEPT_RESUME_WITH_ONION ->
  action (intercept nextHop paymentHash (ForwardMsat (Onion request))
            (OutgoingCltvValue (Onion request)) (CltvExpiry (Htlc request)))
    <> INTERCEPT_FAIL_HTLC_WITH_CODE ->
  sent (decide_and_send intercept request nextHop paymentHash s)
    = sent s ++ [defaultResolution request]
  /\ crashed (decide_and_send intercept request nextHop paymentHash s) = crashed s.
Proof.
  intros H1 H2. unfold decide_and_send.
  destruct (action _); done.
Qed.

(** C9. When the decision carries an action tag other than
    resume-with-onion and fail-with-code (resume, or any other value), the
    handler of a live process sends the unmodified-continue resolution of
    the event and nothing else. That resolution carries the correlation
    identifier of the event and a continue outcome with neither a forward
    channel nor a replacement payload; it is not a failure. The switch
    sends it once and does not panic. *)
Theorem default_action_resumes intercept request nextHop s :
  action (intercept nextHop (DecodeString (PaymentHash (Htlc request))).1
            (ForwardMsat (Onion request)) (OutgoingCltvValue (Onion request))
            (CltvExpiry (Htlc request)))
    <> INTERCEPT_RESUME_WITH_ONION ->
  action (intercept nextHop (DecodeString (PaymentHash (Htlc request))).1
            (ForwardMsat (Onion request)) (OutgoingCltvValue (Onion request))
            (CltvExpiry (Htlc request)))
    <> INTERCEPT_FAIL_HTLC_WITH_CODE ->
  crashed s = None ->
  defaultResolution request
    = {| Resolution_Correlationid := Correlationid request;
         Outcome := HtlcResolution_Continue None None |}
  /\ (forall FailureMessage,
        Outcome (defaultResolution request) <> HtlcResolution_Fail FailureMessage)
  /\ sent (decide_and_send intercept request nextHop
             (DecodeString (PaymentHash (Htlc request))).1 s)
     = sent s ++ [{| Resolution_Correlationid := Correlationid request;
                     Outcome := HtlcResolution_Continue None None |}]
  /\ crashed (decide_and_send intercept request nextHop
                (DecodeString (PaymentHash (Htlc request))).1 s) = None
  /\ exists n, (1 <= n)%nat
       /\ sent (handler intercept request nextHop s)
          = sent s ++ replicate n {| Resolution_Correlationid := Correlationid request;
                                     Outcome := HtlcResolution_Continue None None |}.
Proof.
  intros H1 H2 Hs.
  destruct (decide_and_send_default intercept request nextHop _ s H1 H2)
    as [Hsent Hcr].
  assert (defaultResolution request
          = {| Resolution_Correlationid := Correlationid request;
               Outcome := HtlcResolution_Continue None None |}) as Hdef by reflexivity.
  rewrite <- Hdef.
  split_and!; [done | done | done | congruence |].
  unfold handler.
  destruct (DecodeString (PaymentHash (Htlc request))) as [h err] eqn:Eh.
  cbn [fst] in *.
  destruct err as [e|].
  - set (s1 := Send (defaultResolution request) s >> doneWg_Add (-1)).
    assert (sent s1 = sent s ++ [defaultResolution request]) as Hs1
      by (subst s1; by rewrite sent_andThen_doneWg_Add).
    rewrite sent_andThen_doneWg_Add. unfold andThen at 1.
    destruct (crashed s1) eqn:Ec.
    + exists 1%nat. split; [lia | done].
    + exists 2%nat. split; [lia|].
      destruct (decide_and_send_default intercept request nextHop h s1 H1 H2) as [-> _].
      rewrite Hs1, <- app_assoc. done.
  - exists 1%nat. split; [lia|].
    rewrite sent_andThen_doneWg_Add. unfold andThen. rewrite Hs. done.
Qed.

Lemma default_action_resumes_witness :
  defaultResolution plain_event
    = {| Resolution_Correlationid := Correlationid plain_event;
         Outcome := HtlcResolution_Continue None None |}
  /\ (forall FailureMessage,
        Outcome (defaultResolution plain_event) <> HtlcResolution_Fail FailureMessage)
  /\ sent (decide_and_send (always (INTERCEPT_OTHER 7)) plain_event "<unknown>"
             (DecodeString (PaymentHash (Htlc plain_event))).1 one_in_flight)
     = sent one_in_flight
       ++ [{| Resolution_Correlationid := Correlationid plain_event;
              Outcome := HtlcResolution_Continue None None |}]
  /\ crashed (decide_and_send (always (INTERCEPT_OTHER 7)) plain_event "<unknown>"
                (DecodeString (PaymentHash (Htlc plain_event))).1 one_in_flight) = None
  /\ exists n, (1 <= n)%nat
       /\ sent (handler (always (INTERCEPT_OTHER 7)) plain_event "<unknown>" one_in_flight)
          = sent one_in_flight
            ++ replicate n {| Resolution_Correlationid := Correlationid plain_event;
                              Outcome := HtlcResolution_Continue None None |}.
Proof.
  apply (default_action_resumes (always (INTERCEPT_OTHER 7)) plain_event
           "<unknown>" one_in_flight); [by vm_compute | by vm_compute | reflexivity].
Defined.

Lemma resumeWithOnion_Correlationid request interceptResult res :
  resumeWithOnion request interceptResult = Ok res ->
  Resolution_Correlationid res = Correlationid request.
Proof.
  unfold resumeWithOnion. destruct (DecodeString _) as [payload [e|]].
  - by intros [= <-].
  - destruct (encodePayloadWithNextHop _ _); [|by intros [= <-]|done].
    by intros [= <-].
Qed.

(** For an event whose payment hash decodes, a handler that does not panic
    sends one resolution, with the correlation identifier of the event. *)
Lemma handler_one_resolution intercept request nextHop s h :
  DecodeString (PaymentHash (Htlc request)) = (h, None) -> crashed s = None ->
  crashed (decide_and_send intercept request nextHop h s) = None ->
  exists res,
    sent (handler intercept request nextHop s) = sent s ++ [res]
    /\ Resolution_Correlationid res = Correlationid request.
Proof.
  intros Hh Hs Hc. unfold handler. rewrite Hh.
  rewrite sent_andThen_doneWg_Add. unfold andThen. rewrite Hs.
  unfold decide_and_send in *. destruct (action _); try (eexists; split; done).
  destruct (resumeWithOnion _ _) as [res|e|p] eqn:Er.
  - exists res. split; [done|]. by eapply resumeWithOnion_Correlationid.
  - unfold resumeWithOnion in Er. by repeat case_match.
  - done.
Qed.

(** C1, at an event whose payment hash is not hexadecimal. Whatever the
    decision function answers, the handler of that one event sends two
    resolutions with its correlation identifier: the unmodified-continue of
    the failed decode, then the one the decision asks for. *)
Theorem unparsable_hash_two_resolutions intercept GetChannel NodePubkey :
  exists s res,
    run intercept GetChannel NodePubkey started
      [Connect true; Enter; Recv (Some unparsable_event); Handle 0] = Some s
    /\ sent s = [defaultResolution unparsable_event; res]
    /\ Resolution_Correlationid res = Correlationid unparsable_event.
Proof.
  cbv -[nextHopLabel].
  destruct (intercept _ _ _ _ _) as [[] ? ? ?]; eexists _, _; split_and!; reflexivity.
Qed.

(** C3, at an event whose payment hash is not hexadecimal. After the failed
    decode the handler has sent the unmodified-continue, yet it still calls
    the decision function, with the empty hash, and decrements the
    in-flight counter a second time: with this event alone in flight the
    second decrement panics, with two in flight the counter is at zero
    while one handler has not run yet. *)
Theorem unparsable_hash_decides_and_decrements_twice intercept GetChannel NodePubkey :
  (exists s,
    run intercept GetChannel NodePubkey started
      [Connect true; Enter; Recv (Some unparsable_event); Handle 0] = Some s
    /\ decided s
       = [{| call_nextHop := nextHopLabel GetChannel NodePubkey unparsable_event;
             call_paymentHash := []; call_amount := 1000; call_cltv := 40;
             call_expiry := 50 |}]
    /\ crashed s = Some "sync: negative WaitGroup counter"%string)
  /\ (exists s,
    run intercept GetChannel NodePubkey started
      [Connect true; Enter; Recv (Some unparsable_event); Enter;
       Recv (Some unparsable_event); Handle 0] = Some s
    /\ length (pending s) = 1%nat /\ doneWg s = 0%Z /\ crashed s = None).
Proof.
  split.
  - cbv -[nextHopLabel].
    destruct (intercept _ _ _ _ _) as [[] ? ? ?]; eexists; split_and!; reflexivity.
  - cbv -[nextHopLabel].
    destruct (intercept _ _ _ _ _) as [[] ? ? ?]; eexists; split_and!; reflexivity.
Qed.

(** ** The next-hop label *)

Lemma nextHopLabel_success GetChannel NodePubkey request channels :
  GetChannel (ShortChannelId (Onion request)) = (channels, None) ->
  nextHopLabel GetChannel NodePubkey request = "<unknown>"%string.
Proof. intros H. unfold nextHopLabel. by rewrite H. Qed.

Lemma nextHopLabel_failure GetChannel NodePubkey request channels e :
  GetChannel (ShortChannelId (Onion request)) = (channels, Some e) ->
  nextHopLabel GetChannel NodePubkey request
  = scanChannels NodePubkey channels "<unknown>".
Proof. intros H. unfold nextHopLabel. by rewrite H. Qed.

(** The decision function is called with the label the handler was
    spawned with. *)
Lemma handler_calls intercept request nextHop s h :
  DecodeString (PaymentHash (Htlc request)) = (h, None) -> crashed s = None ->
  decided (handler intercept request nextHop s)
  = decided s ++ [{| call_nextHop := nextHop; call_paymentHash := h;
                     call_amount := ForwardMsat (Onion request);
                     call_cltv := OutgoingCltvValue (Onion request);
                     call_expiry := CltvExpiry (Htlc request) |}].
Proof.
  intros Hh Hs. unfold handler. rewrite Hh.
  unfold andThen at 2. rewrite Hs.
  assert (forall x, decided (x >> doneWg_Add (-1)) = decided x) as ->.
  { intros x. unfold andThen, doneWg_Add.
    destruct (crashed x); [done|]. by destruct (WaitGroup_Add _ _). }
  unfold decide_and_send. destruct (action _); try done.
  by destruct (resumeWithOnion _ _).
Qed.

(** C6, at a lookup that succeeds and returns the channel from the local
    node [02local] to [03peer]: the label the handler is started with, which
    it passes to the decision function, is not the counterparty, it stays
    <unknown>. The scan that would find the counterparty runs only when the
    lookup reports an error. *)
Theorem successful_lookup_is_ignored intercept :
  nextHopLabel graph_knows_peer "02local" plain_event = "<unknown>"%string
  /\ scanChannels "02local" (graph_knows_peer "1x1x1").1 "<unknown>" = "03peer"%string
  /\ exists s,
       run intercept graph_knows_peer "02local" started
         [Connect true; Enter; Recv (Some plain_event)] = Some s
       /\ pending s = [(plain_event, "<unknown>"%string)].
Proof.
  split_and!; [done | done |].
  eexists. split; reflexivity.
Qed.

(** ** Runs of the system *)

(** Case analysis on a step: the event must be enabled, and the state
    after it is computed field by field. *)
Ltac step_cases Hs :=
  unfold step in Hs;
  match type of Hs with
  | match crashed ?s with _ => _ end = _ =>
      destruct (crashed s) eqn:?; [discriminate Hs|]
  end.

Ltac crush_step s Hs :=
  destruct s as [sr c iw dw ini lp st pd sn dc cr];
  unfold consistent, loop_exited in *; cbn in *; subst;
  unfold loop_exit, andThen, initWg_Done, doneWg_Add, WaitGroup_Add in Hs;
  cbn in Hs;
  repeat (first
    [ match type of Hs with
      | context [match ?x with _ => _ end] => is_var x; destruct x
      end
    | match type of Hs with
      | context [(?a <? ?b)%Z] => destruct (Z.ltb_spec a b)
      | context [(?a =? ?b)%Z] => destruct (Z.eqb_spec a b)
      end
    | match type of Hs with
      | context [match ?x with _ => _ end] => destruct x eqn:?
      end ];
    cbn in *; try discriminate Hs; try lia);
  injection Hs as <-; cbn in *; simplify_eq.

Section Runs.
Variable intercept : string -> list byte -> N -> N -> N -> interceptResult.
Variable GetChannel : string -> list PeerChannel * option error.
Variable NodePubkey : string.

Abbreviation step_ := (step intercept GetChannel NodePubkey).
Abbreviation run_ := (run intercept GetChannel NodePubkey).

Lemma run_app s tr1 tr2 :
  run_ s (tr1 ++ tr2) = run_ s tr1 ≫= fun s' => run_ s' tr2.
Proof.
  revert s. induction tr1 as [|e tr1 IH]; intros s; [done|].
  cbn [app run]. destruct (step_ s e); [apply IH | done].
Qed.

Lemma run_snoc s tr e s' :
  run_ s (tr ++ [e]) = Some s' <->
  exists s1, run_ s tr = Some s1 /\ step_ s1 e = Some s'.
Proof.
  rewrite run_app. split.
  - destruct (run_ s tr) as [s1|]; [|done]. cbn.
    destruct (step_ s1 e) as [s2|] eqn:E; [|done]. intros [= <-]. eauto.
  - intros (s1 & -> & Hs). cbn. by rewrite Hs.
Qed.

(** Induction along a run, one event at a time. *)
Lemma run_ind (P : list event -> system -> Prop) s0 :
  P [] s0 ->
  (forall tr s e s', run_ s0 tr = Some s -> P tr s -> step_ s e = Some s' ->
     P (tr ++ [e]) s') ->
  forall tr s, run_ s0 tr = Some s -> P tr s.
Proof.
  intros H0 Hstep tr. induction tr as [|e tr IH] using rev_ind; intros s Hr.
  - injection Hr as <-. done.
  - apply run_snoc in Hr as (s1 & Hr & Hs). eauto.
Qed.

(** *** What a handler leaves alone *)

Lemma same_control_refl s : same_control s s.
Proof. by repeat split. Qed.

Lemma same_control_trans s1 s2 s3 :
  same_control s1 s2 -> same_control s2 s3 -> same_control s1 s3.
Proof. unfold same_control. intros; split_and!; destruct_and!; congruence. Qed.

Lemma same_control_andThen s k :
  (forall s1, same_control s1 (k s1)) -> same_control s (s >> k).
Proof. intros Hk. unfold andThen. destruct (crashed s); [apply same_control_refl | apply Hk]. Qed.

Lemma same_control_doneWg_Add delta s : same_control s (doneWg_Add delta s).
Proof. unfold doneWg_Add. destruct (WaitGroup_Add delta (doneWg s)); by repeat split. Qed.

Lemma same_control_decide_and_send request nextHop h s :
  same_control s (decide_and_send intercept request nextHop h s).
Proof.
  unfold decide_and_send. destruct (action _); try by repeat split.
  destruct (resumeWithOnion _ _); by repeat split.
Qed.

Lemma same_control_handler request nextHop s :
  same_control s (handler intercept request nextHop s).
Proof.
  unfold handler. destruct (DecodeString _) as [h err].
  eapply same_control_trans; [|apply same_control_andThen, same_control_doneWg_Add].
  eapply same_control_trans; [|apply same_control_andThen, same_control_decide_and_send].
  destruct err; [|apply same_control_refl].
  eapply same_control_trans; [|apply same_control_andThen, same_control_doneWg_Add].
  by repeat split.
Qed.


Lemma doneWg_Add_nonneg delta s :
  (0 <= doneWg s)%Z -> (0 <= doneWg (doneWg_Add delta s))%Z.
Proof.
  intros H. unfold doneWg_Add, WaitGroup_Add.
  destruct (Z.ltb_spec (doneWg s + delta) 0); cbn; lia.
Qed.

Lemma doneWg_andThen_nonneg s k :
  (forall s1, (0 <= doneWg s1)%Z -> (0 <= doneWg (k s1))%Z) ->
  (0 <= doneWg s)%Z -> (0 <= doneWg (s >> k))%Z.
Proof. intros Hk H. unfold andThen. destruct (crashed s); auto. Qed.

Lemma doneWg_decide_and_send request nextHop h s :
  doneWg (decide_and_send intercept request nextHop h s) = doneWg s.
Proof.
  unfold decide_and_send. destruct (action _); try done.
  by destruct (resumeWithOnion _ _).
Qed.

Lemma handler_nonneg request nextHop s :
  (0 <= doneWg s)%Z -> (0 <= doneWg (handler intercept request nextHop s))%Z.
Proof.
  intros H. unfold handler. destruct (DecodeString _) as [h err].
  apply doneWg_andThen_nonneg; [intros; by apply doneWg_Add_nonneg|].
  apply doneWg_andThen_nonneg; [intros; by rewrite doneWg_decide_and_send|].
  destruct err; [|done].
  apply doneWg_andThen_nonneg; [intros; by apply doneWg_Add_nonneg|]. done.
Qed.

Lemma step_consistent s e s' : consistent s -> step_ s e = Some s' -> consistent s'.
Proof.
  intros (H1 & H2 & H3 & H4) Hs. step_cases Hs.
  destruct e as [ok| |[request|]| |k| | |].
  6:{ destruct (pending s !! k) as [[request nextHop]|]; [|done].
      injection Hs as <-.
      pose proof (same_control_handler request nextHop (set_pending (delete k (pending s)) s))
        as (E1 & E2 & E3 & E4 & E5 & E6 & E7).
      unfold consistent, loop_exited. rewrite E1, E2, E3, E4, E5, E6.
      split_and!; [done..|]. by apply handler_nonneg. }
  all: crush_step s Hs.
  all: split_and!; try (done || lia); try (destruct ini; cbn in *; by simplify_eq).
  all: intuition congruence.
Qed.


Lemma step_stop s e s' :
  step_ s e = Some s' ->
  stop_history (stop s') = stop_history (stop s) ++ (if is_stop_event e then [e] else []).
Proof.
  intros Hs. step_cases Hs.
  destruct e as [ok| |[request|]| |k| | |].
  6:{ destruct (pending s !! k) as [[request nextHop]|]; [|done].
      injection Hs as <-.
      pose proof (same_control_handler request nextHop (set_pending (delete k (pending s)) s))
        as (E1 & E2 & E3 & E4 & E5 & E6 & E7).
      rewrite E6. cbn. by rewrite app_nil_r. }
  all: crush_step s Hs.
  all: by rewrite ?app_nil_r.
Qed.


Lemma run_consistent s0 tr s :
  consistent s0 -> run_ s0 tr = Some s -> consistent s.
Proof.
  revert s0. induction tr as [|e tr IH]; intros s0 H0 Hr.
  - by injection Hr as <-.
  - cbn [run] in Hr. destruct (step_ s0 e) as [s1|] eqn:Hs; [|done].
    eauto using step_consistent.
Qed.

Lemma started_consistent : consistent started.
Proof. by repeat split. Qed.

Lemma run_stop_history s0 tr s :
  run_ s0 tr = Some s ->
  stop_history (stop s) = stop_history (stop s0) ++ List.filter is_stop_event tr.
Proof.
  revert s0. induction tr as [|e tr IH]; intros s0 Hr.
  - injection Hr as <-. by rewrite app_nil_r.
  - cbn [run] in Hr. destruct (step_ s0 e) as [s1|] eqn:Hs; [|done].
    rewrite (IH _ Hr), (step_stop _ _ _ Hs). cbn [List.filter].
    destruct (is_stop_event e); by rewrite <- app_assoc.
Qed.


Lemma step_monotone s e s' :
  step_ s e = Some s' ->
  (inited s = true -> inited s' = true)
  /\ (loop_exited s = true -> loop_exited s' = true).
Proof.
  intros Hs. step_cases Hs.
  destruct e as [ok| |[request|]| |k| | |].
  6:{ destruct (pending s !! k) as [[request nextHop]|]; [|done].
      injection Hs as <-.
      pose proof (same_control_handler request nextHop (set_pending (delete k (pending s)) s))
        as (E1 & E2 & E3 & E4 & E5 & E6 & E7).
      unfold loop_exited. rewrite E4, E5. done. }
  all: crush_step s Hs.
  all: split; try done.
Qed.

Lemma step_opened s e s' :
  step_ s e = Some s' ->
  (inited s' = true \/ loop s' = L_Receive \/ loop s' = L_Recv) ->
  (inited s = true \/ loop s = L_Receive \/ loop s = L_Recv) \/ e = Connect true.
Proof.
  intros Hs. step_cases Hs.
  destruct e as [ok| |[request|]| |k| | |].
  6:{ destruct (pending s !! k) as [[request nextHop]|]; [|done].
      injection Hs as <-.
      pose proof (same_control_handler request nextHop (set_pending (delete k (pending s)) s))
        as (E1 & E2 & E3 & E4 & E5 & E6 & E7).
      rewrite E4, E5. cbn. tauto. }
  all: crush_step s Hs.
  all: try tauto.
  all: intuition congruence.
Qed.

Lemma step_crash s e s' :
  consistent s -> step_ s e = Some s' -> crashed s' <> None -> exists k, e = Handle k.
Proof.
  intros (H1 & H2 & H3 & H4) Hs. step_cases Hs.
  destruct e as [ok| |[request|]| |k| | |].
  6:{ eauto. }
  all: crush_step s Hs.
  all: done.
Qed.

Lemma run_failed_opens K :
  run_ started (replicate K (Connect false) ++ [Connect true])
  = Some (set_loop L_Receive started).
Proof. induction K as [|K IH]; [done|]. exact IH. Qed.

End Runs.

Lemma run_consistent_started intercept GetChannel NodePubkey tr s :
  run intercept GetChannel NodePubkey started tr = Some s -> consistent s.
Proof. apply run_consistent, started_consistent. Qed.

(** ** Stop *)

(** *** What a handler sends *)

Lemma resumeWithOnion_not_Err request interceptResult e :
  resumeWithOnion request interceptResult <> Err e.
Proof. unfold resumeWithOnion. by repeat case_match. Qed.

Lemma decide_and_send_sends intercept request nextHop h s :
  exists new,
    sent (decide_and_send intercept request nextHop h s) = sent s ++ new
    /\ (length new <= 1)%nat /\ Forall (answers request) new
    /\ (new = [] -> crashed (decide_and_send intercept request nextHop h s) <> None).
Proof.
  unfold decide_and_send.
  destruct (action _);
    try (eexists [_]; split_and!; [done | done | by repeat constructor | done]).
  destruct (resumeWithOnion _ _) as [res|e|p] eqn:Er.
  - exists [res]. split_and!; [done | done | | done].
    repeat constructor. by eapply resumeWithOnion_Correlationid.
  - by apply resumeWithOnion_not_Err in Er.
  - exists []. split_and!; [by rewrite app_nil_r | cbn; lia | constructor | done].
Qed.

Lemma crashed_andThen_doneWg_Add delta s :
  crashed s <> None -> crashed (s >> doneWg_Add delta) <> None.
Proof. intros H. unfold andThen. by destruct (crashed s) eqn:E; [rewrite E|]. Qed.

Lemma deliveries_app tr1 tr2 : deliveries (tr1 ++ tr2) = deliveries tr1 ++ deliveries tr2.
Proof.
  induction tr1 as [|e tr1 IH]; [done|].
  destruct e as [| |[r|]| | | | |]; cbn; by rewrite ?IH.
Qed.

Lemma handler_sent intercept request nextHop s :
  crashed s = None ->
  exists new,
    sent (handler intercept request nextHop s) = sent s ++ new
    /\ (length new <= 2)%nat /\ Forall (answers request) new
    /\ (new = [] -> crashed (handler intercept request nextHop s) <> None).
Proof.
  intros Hs. unfold handler. destruct (DecodeString _) as [h [e|]].
  - set (s1 := Send (defaultResolution request) s >> doneWg_Add (-1)).
    assert (sent s1 = sent s ++ [defaultResolution request]) as Hs1
      by (subst s1; by rewrite sent_andThen_doneWg_Add).
    rewrite sent_andThen_doneWg_Add. unfold andThen at 1.
    destruct (crashed s1) eqn:Ec.
    + exists [defaultResolution request].
      split_and!; [done | cbn; lia | by repeat constructor | done].
    + destruct (decide_and_send_sends intercept request nextHop h s1)
        as (new & -> & Hlen & Hall & _).
      exists (defaultResolution request :: new). rewrite Hs1, <- app_assoc.
      split_and!; [done | cbn; lia | by constructor | done].
  - assert (s >> decide_and_send intercept request nextHop h
            = decide_and_send intercept request nextHop h s) as ->
      by (unfold andThen; by rewrite Hs).
    rewrite sent_andThen_doneWg_Add.
    destruct (decide_and_send_sends intercept request nextHop h s)
      as (new & Hsent & Hlen & Hall & Hnil).
    exists new. split_and!; [done | lia | done |].
    intros Hn. by apply crashed_andThen_doneWg_Add, Hnil.
Qed.


Section Stopping.
Variable intercept : string -> list byte -> N -> N -> N -> interceptResult.
Variable GetChannel : string -> list PeerChannel * option error.
Variable NodePubkey : string.

Abbreviation step_ := (step intercept GetChannel NodePubkey).
Abbreviation run_ := (run intercept GetChannel NodePubkey).





End Stopping.





(** ** The readiness barrier *)

(** C7, as the code has it. In every run of the loop the barrier counter is
    1 until the loop first enters its receive loop or leaves, and 0 from
    then on; it is never decremented a second time (that would panic, and
    only a handler ever panics); a release inside the loop comes after a
    stream was opened. After K failed opens and a successful one the
    barrier is still closed, and the entry into the receive loop releases
    it. What the claim leaves out is the release on exit: a loop that
    returns before it ever entered the receive loop releases the barrier in
    its deferred function. *)
Theorem barrier_released_once intercept GetChannel NodePubkey :
  (forall tr s,
     run intercept GetChannel NodePubkey started tr = Some s ->
     initWg s = (if inited s || loop_exited s then 0 else 1)%Z
     /\ (inited s = true -> Connect true ∈ tr)
     /\ (crashed s <> None -> exists tr0 k, tr = tr0 ++ [Handle k])
     /\ (forall tr' s', initWg s = 0%Z ->
           run intercept GetChannel NodePubkey s tr' = Some s' -> initWg s' = 0%Z))
  /\ (forall K, exists s1 s2,
        run intercept GetChannel NodePubkey started
          (replicate K (Connect false) ++ [Connect true]) = Some s1
        /\ initWg s1 = 1%Z
        /\ step intercept GetChannel NodePubkey s1 Enter = Some s2
        /\ initWg s2 = 0%Z /\ crashed s2 = None).
Proof.
  split.
  - intros tr s Hr. pose proof (run_consistent_started _ _ _ _ _ Hr) as Hc.
    split_and!.
    + apply Hc.
    + intros Hi.
      cut ((inited s = true \/ loop s = L_Receive \/ loop s = L_Recv) -> Connect true ∈ tr);
        [tauto|]. clear Hi Hc. revert tr s Hr.
      apply (run_ind intercept GetChannel NodePubkey
               (fun tr s => (inited s = true \/ loop s = L_Receive \/ loop s = L_Recv)
                            -> Connect true ∈ tr)).
      * cbn. intuition congruence.
      * intros tr s e s' _ IH Hs Ho. apply elem_of_app.
        destruct (step_opened _ _ _ _ _ _ Hs Ho) as [Ho'| ->];
          [left; auto | right; apply list_elem_of_here].
    + intros Hcr. destruct tr as [|e tr _] using rev_ind.
      { injection Hr as <-. done. }
      apply run_snoc in Hr as (s1 & Hr & Hs).
      pose proof (run_consistent_started _ _ _ _ _ Hr) as Hc1.
      destruct (step_crash _ _ _ _ _ _ Hc1 Hs Hcr) as [k ->]. eauto.
    + intros tr' s' Hz Hr'.
      assert (run intercept GetChannel NodePubkey started (tr ++ tr') = Some s') as Hr2
        by (by rewrite run_app, Hr).
      pose proof (run_consistent_started _ _ _ _ _ Hr2) as (_ & _ & -> & _).
      destruct Hc as (_ & _ & Hi & _). rewrite Hz in Hi.
      assert (inited s || loop_exited s = true) as Hb
        by (destruct (inited s || loop_exited s); done).
      clear Hr Hr2 Hi Hz. revert s Hb Hr'.
      induction tr' as [|e tr' IH]; intros s Hb Hr'.
      { injection Hr' as <-. by rewrite Hb. }
      cbn [run] in Hr'.
      destruct (step intercept GetChannel NodePubkey s e) as [s1|] eqn:Hs; [|done].
      apply (IH s1); [|done].
      destruct (step_monotone _ _ _ _ _ _ Hs) as [Hm1 Hm2].
      apply orb_true_iff in Hb as [Hb|Hb]; apply orb_true_iff; auto.
  - intros K. eexists _, _. rewrite run_failed_opens.
    split_and!; reflexivity.
Qed.

Lemma barrier_released_once_witness :
  exists s,
    run (always INTERCEPT_RESUME) graph_fails "02local" started
      [Connect false; Connect false; Connect true; Enter; Recv None; Connect true; Enter]
    = Some s
    /\ initWg s = (if inited s || loop_exited s then 0 else 1)%Z
    /\ (inited s = true ->
        Connect true ∈ [Connect false; Connect false; Connect true; Enter; Recv None;
                        Connect true; Enter])
    /\ initWg s = 0%Z /\ crashed s = None.
Proof.
  eexists. split; [vm_compute; reflexivity|].
  destruct (proj1 (barrier_released_once (always INTERCEPT_RESUME) graph_fails "02local")
              [Connect false; Connect false; Connect true; Enter; Recv None;
               Connect true; Enter] _ eq_refl) as (H1 & H2 & _ & _).
  split_and!; [exact H1 | exact H2 | reflexivity | reflexivity].
Defined.

(** C7 as stated fails: while the stream cannot be opened, [Stop] runs; the
    loop finds its context cancelled and returns, and its deferred function
    releases the barrier although no stream was ever opened. *)
Lemma barrier_released_without_open :
  ~ barrier_needs_open (always INTERCEPT_RESUME) graph_fails "02local".
Proof.
  intros H.
  specialize (H [Connect false; StopFlag; StopWaited; StopCancel; Connect false]
                _ eq_refl eq_refl).
  repeat (apply elem_of_cons in H as [H|H]; [discriminate H|]).
  by apply elem_of_nil in H.
Qed.

(* ================================================================= *)
(** * Further properties of the code *)

(** ** The wire formats *)

(** X1. [ReadVarInt] accepts exactly the canonical BigSize encodings: it
    returns a value with the rest of the buffer precisely when the buffer
    starts with what [WriteVarInt] writes for that value, a 64-bit
    number. *)
Theorem ReadVarInt_canonical r v rest :
  ReadVarInt r = Ok (v, rest) <-> r = WriteVarInt v ++ rest /\ v < 2 ^ 64.
Proof.
  split; [apply ReadVarInt_Ok|]. intros [-> Hv]. by apply ReadVarInt_WriteVarInt.
Qed.

Lemma ReadVarInt_canonical_witness :
  ReadVarInt (hexBytes "fd0100aa") = Ok (256, [xaa]).
Proof.
  apply (ReadVarInt_canonical (hexBytes "fd0100aa") 256 [xaa]).
  split; [by vm_compute | by vm_compute].
Defined.

(** X2. A byte string decodes to a type map exactly when it is the
    encoding of the sorted records of that map and the map fits the wire
    format: decoding inverts encoding, and nothing but a canonical stream
    decodes. *)
Theorem DecodeWithParsedTypes_iff r m :
  DecodeWithParsedTypes r = Ok m <-> r = Encode (MapToRecords m) /\ wire_map m.
Proof.
  split; [apply DecodeWithParsedTypes_canonical|].
  intros [-> Hw]. by apply DecodeWithParsedTypes_MapToRecords.
Qed.

Lemma DecodeWithParsedTypes_iff_witness :
  hexBytes "0201aa0900" = Encode (MapToRecords {[2 := [xaa]; 9 := []]})
  /\ wire_map ({[2 := [xaa]; 9 := []]} : gmap N (list byte)).
Proof.
  apply (DecodeWithParsedTypes_iff (hexBytes "0201aa0900") {[2 := [xaa]; 9 := []]}).
  by vm_compute.
Defined.

Lemma decode_not_canonical l : forall rounds min overflow acc,
  Forall wire_record l -> checkCanonical l min overflow = false ->
  (length (Encode l) < rounds)%nat ->
  decode rounds (Encode l) min overflow acc = Err ErrStreamNotCanonical.
Proof.
  induction l as [|[t b] l IH]; intros [|n] min overflow acc Hw Hc Hr;
    try (simpl in Hr; lia); [done|].
  apply Forall_cons in Hw as [[Ht Hb] Hw]. cbn [typ value fst snd] in Ht, Hb.
  cbn [checkCanonical typ fst] in Hc.
  rewrite Encode_cons in Hr |- *. unfold encodeRecord in Hr |- *.
  cbn [typ value fst snd] in Hr |- *. rewrite !length_app in Hr.
  cbn [decode]. rewrite <- !app_assoc.
  rewrite ReadVarInt_WriteVarInt by done.
  destruct (overflow || (t <? min)) eqn:Ec; [done|].
  rewrite ReadVarInt_WriteVarInt by (eapply N.le_lt_trans; [exact Hb | done]).
  destruct (N.ltb_spec maxAlloc (N.of_nat (length b))); [lia|].
  rewrite ReadFull_app.
  pose proof (length_WriteVarInt_pos t).
  apply IH; [done | done | lia].
Qed.

Lemma unsorted_not_canonical pre rec1 rec2 post :
  Forall wire_record (pre ++ rec1 :: rec2 :: post) ->
  typ rec2 <= typ rec1 ->
  checkCanonical (pre ++ rec1 :: rec2 :: post) 0 false = false.
Proof.
  intros Hw Hle.
  destruct (checkCanonical _ 0 false) eqn:Hc; [|done]. exfalso.
  apply checkCanonical_sorted in Hc as (Hs & _ & _); [|done].
  apply StronglySorted_app_1_r in Hs.
  apply StronglySorted_inv in Hs as [_ Hlt]. apply Forall_inv in Hlt.
  unfold typ_lt in Hlt. lia.
Qed.

(** X3. A record stream in which some record is followed by one of the
    same or a smaller type is rejected as not canonical, by the decoder and
    so by the rewriter: duplicate and out-of-order records are never merged
    or reordered. *)
Theorem out_of_order_rejected pre rec1 rec2 post trailing channelId :
  Forall wire_record (pre ++ rec1 :: rec2 :: post) ->
  typ rec2 <= typ rec1 ->
  N.of_nat (length (Encode (pre ++ rec1 :: rec2 :: post))) <= maxAlloc ->
  DecodeWithParsedTypes (Encode (pre ++ rec1 :: rec2 :: post))
    = Err ErrStreamNotCanonical
  /\ encodePayloadWithNextHop
       (WriteVarInt (N.of_nat (length (Encode (pre ++ rec1 :: rec2 :: post))))
        ++ Encode (pre ++ rec1 :: rec2 :: post) ++ trailing) channelId
     = Err (DecodeWithParsedTypesFailed ErrStreamNotCanonical).
Proof.
  intros Hw Hle Hlen.
  assert (DecodeWithParsedTypes (Encode (pre ++ rec1 :: rec2 :: post))
          = Err ErrStreamNotCanonical) as Hd.
  { unfold DecodeWithParsedTypes. apply decode_not_canonical; [done| |lia].
    by apply unsorted_not_canonical. }
  split; [done|].
  unfold encodePayloadWithNextHop, mbind, outcome_bind.
  rewrite ReadVarInt_WriteVarInt by (eapply N.le_lt_trans; [exact Hlen | done]).
  cbn [wrap obind]. apply make_Ok in Hlen as ->. cbn [obind].
  rewrite ReadFull_app. cbn [wrap obind]. by rewrite Hd.
Qed.

Lemma out_of_order_rejected_witness :
  DecodeWithParsedTypes (Encode ([] ++ (6, PutUint 8 1) :: (2, [xaa]) :: []))
    = Err ErrStreamNotCanonical
  /\ encodePayloadWithNextHop
       (WriteVarInt (N.of_nat (length (Encode ([] ++ (6, PutUint 8 1) :: (2, [xaa]) :: []))))
        ++ Encode ([] ++ (6, PutUint 8 1) :: (2, [xaa]) :: []) ++ []) 258
     = Err (DecodeWithParsedTypesFailed ErrStreamNotCanonical).
Proof.
  apply (out_of_order_rejected [] (6, PutUint 8 1) (2, [xaa]) [] [] 258).
  - repeat constructor; by vm_compute.
  - by vm_compute.
  - by vm_compute.
Defined.

Lemma fromHexChar_hextable n : n < 16 -> fromHexChar (hextable n) = Some n.
Proof.
  intros Hn. destruct n as [|p]; [reflexivity|].
  do 4 (try destruct p as [p|p|]); try reflexivity; lia.
Qed.

Lemma DecodeString_EncodeToString src :
  DecodeString (EncodeToString src) = (src, None).
Proof.
  induction src as [|v src IH]; [done|].
  cbn [EncodeToString DecodeString].
  pose proof (to_N_lt v) as Hv.
  rewrite !fromHexChar_hextable, IH.
  - f_equal. f_equal. rewrite <- (uint8_of_to_N v) at 3. f_equal.
    rewrite (N.div_mod (Byte.to_N v) 16) at 3 by lia. lia.
  - apply N.mod_upper_bound. lia.
  - apply N.Div0.div_lt_upper_bound. lia.
Qed.

(** X4. Hexadecimal encoding round trip: [hex.DecodeString] gives back,
    without error, the bytes [hex.EncodeToString] was given, and the
    encoding has two characters per byte. *)
Theorem hex_round_trip src :
  DecodeString (EncodeToString src) = (src, None)
  /\ String.length (EncodeToString src) = (2 * length src)%nat.
Proof.
  split; [apply DecodeString_EncodeToString|].
  induction src as [|v src IH]; [done|]. cbn [EncodeToString String.length length].
  rewrite IH. lia.
Qed.

Lemma DecodeString_ok_aux n : forall s,
  (String.length s < n)%nat ->
  ((DecodeString s).2 = None <->
   all_hex s = true /\ Nat.even (String.length s) = true)
  /\ (String.length s
      = 2 * length (DecodeString s).1 + (if Nat.even (String.length s) then 0 else 1)
      \/ (DecodeString s).2 <> None)%nat.
Proof.
  induction n as [|n IH]; intros s Hn; [lia|].
  destruct s as [|p [|q s']].
  - cbn. split; [done | by left].
  - cbn. unfold is_hex.
    destruct (fromHexChar p); cbn; split; try (right; done); split; try done;
      intros []; done.
  - cbn [DecodeString all_hex String.length]. unfold is_hex at 1 2.
    destruct (fromHexChar p) as [a|];
      [|cbn; split; [split; [done | by intros []] | by right]].
    destruct (fromHexChar q) as [b|];
      [|cbn; split; [split; [done | by intros []] | by right]].
    destruct (IH s') as [IH1 IH2]; [cbn in Hn; lia|].
    destruct (DecodeString s') as [bs err]. cbn [fst snd] in *.
    cbn [andb Nat.even]. split; [exact IH1|].
    destruct IH2 as [IH2|IH2]; [left | by right].
    cbn [length]. lia.
Qed.

(** X5. [hex.DecodeString] reports no error exactly for the strings of
    even length whose characters are all hexadecimal digits (of either
    case), and then it returns one byte for every two characters. *)
Theorem DecodeString_ok_iff s :
  ((DecodeString s).2 = None <->
   all_hex s = true /\ Nat.even (String.length s) = true)
  /\ ((DecodeString s).2 = None ->
      String.length s = (2 * length (DecodeString s).1)%nat).
Proof.
  destruct (DecodeString_ok_aux (S (String.length s)) s) as [H1 H2]; [lia|].
  split; [done|]. intros Hok. apply H1 in Hok as Hok'. destruct Hok' as [_ He].
  destruct H2 as [H2|H2]; [rewrite He in H2; lia | done].
Qed.

Lemma DecodeString_ok_iff_witness :
  String.length "00fF" = (2 * length (DecodeString "00fF").1)%nat.
Proof.
  apply (DecodeString_ok_iff "00fF"). reflexivity.
Defined.

(** ** The rewriter on a list of records *)

Lemma setNextHop_wire cid l :
  Forall wire_record l -> Forall wire_record (setNextHop (encodeNextHop cid) <$> l).
Proof.
  intros Hw. apply Forall_fmap. eapply Forall_impl; [exact Hw|].
  intros [t v] [Ht Hv]. split; [done|]. unfold setNextHop. cbn [typ value fst snd] in *.
  case_decide; [|done]. unfold encodeNextHop. by rewrite length_PutUint.
Qed.

Lemma parsePayload_records l trailing :
  StronglySorted typ_lt l -> Forall wire_record l ->
  N.of_nat (length (Encode l)) <= maxAlloc ->
  parsePayload (WriteVarInt (N.of_nat (length (Encode l))) ++ Encode l ++ trailing)
  = Ok (list_to_map l).
Proof.
  intros Hs Hw Hlen. apply parsePayload_Ok. exists (Encode l), trailing.
  split_and!; [done | done |]. by apply DecodeWithParsedTypes_Encode.
Qed.

Lemma encodePayloadWithNextHop_records l trailing cid :
  StronglySorted typ_lt l -> Forall wire_record l ->
  N.of_nat (length (Encode l)) <= maxAlloc ->
  encodePayloadWithNextHop
    (WriteVarInt (N.of_nat (length (Encode l))) ++ Encode l ++ trailing) cid
  = Ok (Encode (setNextHop (encodeNextHop cid) <$> l)).
Proof.
  intros Hs Hw Hlen. rewrite encodePayloadWithNextHop_parse, parsePayload_records by done.
  cbn. by rewrite MapToRecords_uTlvMap.
Qed.

(** X6. The rewriter succeeds on exactly the payloads that are a canonical
    length prefix, the encoding of a strictly ascending list of records of
    that length, and any bytes after it; the output is then the encoding of
    the same records, in the same order, with the value of the next-hop
    record, if there is one, replaced. *)
Theorem encodePayloadWithNextHop_Ok_iff payload channelId out :
  encodePayloadWithNextHop payload channelId = Ok out <->
  exists l trailing,
    StronglySorted typ_lt l /\ Forall wire_record l
    /\ N.of_nat (length (Encode l)) <= maxAlloc
    /\ payload = WriteVarInt (N.of_nat (length (Encode l))) ++ Encode l ++ trailing
    /\ out = Encode (setNextHop (encodeNextHop channelId) <$> l).
Proof.
  split.
  - rewrite encodePayloadWithNextHop_parse.
    destruct (parsePayload payload) as [m| |] eqn:Hp; [|done..].
    intros [= <-].
    apply parsePayload_Ok in Hp as (inner & trailing & -> & Hlen & Hd).
    apply DecodeWithParsedTypes_Ok in Hd as (l & -> & Hs & Hw & ->).
    exists l, trailing. split_and!; [done..|]. by rewrite MapToRecords_uTlvMap.
  - intros (l & trailing & Hs & Hw & Hlen & -> & ->).
    by apply encodePayloadWithNextHop_records.
Qed.

Lemma encodePayloadWithNextHop_Ok_iff_witness :
  exists l trailing,
    StronglySorted typ_lt l /\ Forall wire_record l
    /\ N.of_nat (length (Encode l)) <= maxAlloc
    /\ hexBytes "0f0201aa060800000000000000010900ffee"
       = WriteVarInt (N.of_nat (length (Encode l))) ++ Encode l ++ trailing
    /\ hexBytes "0201aa060800000000000001020900"
       = Encode (setNextHop (encodeNextHop 258) <$> l).
Proof.
  apply (encodePayloadWithNextHop_Ok_iff
           (hexBytes "0f0201aa060800000000000000010900ffee") 258
           (hexBytes "0201aa060800000000000001020900")).
  by vm_compute.
Defined.

(** X7. Every error of the rewriter comes from reading: a leading length
    that cannot be read, fewer bytes than that length declares, or an
    inner payload the record decoder refuses. Building the new stream and
    encoding it never fail, so the error arm for [tlv.NewStream] is never
    taken. *)
Theorem encodePayloadWithNextHop_errors payload channelId e :
  encodePayloadWithNextHop payload channelId = Err e ->
  (exists cause, e = FailedToReadPayloadLength cause /\ ReadVarInt payload = Err cause)
  \/ (exists cause varInt rest, e = FailedToDecodePayload cause
        /\ ReadVarInt payload = Ok (varInt, rest) /\ N.of_nat (length rest) < varInt)
  \/ (exists cause varInt rest, e = DecodeWithParsedTypesFailed cause
        /\ ReadVarInt payload = Ok (varInt, rest)
        /\ DecodeWithParsedTypes (take (N.to_nat varInt) rest) = Err cause).
Proof.
  unfold encodePayloadWithNextHop, mbind, outcome_bind.
  destruct (ReadVarInt payload) as [[varInt bufReader]|c|] eqn:Ev; [| |done].
  2:{ intros [= <-]. left. eauto. }
  cbn [wrap obind].
  destruct (make varInt) as [[]|?|?] eqn:Em;
    [|by unfold make in Em; case_match|done].
  cbn [obind].
  destruct (ReadFull varInt bufReader) as [[inner trailing]|c|] eqn:Er; [| |done].
  2:{ intros [= <-]. right. left. exists c, varInt, bufReader. split_and!; [done..|].
      unfold ReadFull in Er.
      destruct (N.leb_spec varInt (N.of_nat (length bufReader))); [done | lia]. }
  cbn [wrap obind].
  destruct (DecodeWithParsedTypes inner) as [m|c|] eqn:Ed; [| |done].
  2:{ intros [= <-]. right. right. exists c, varInt, bufReader. split_and!; [done..|].
      unfold ReadFull in Er.
      destruct (N.leb_spec varInt (N.of_nat (length bufReader))); [|by destruct bufReader].
      by injection Er as <- <-. }
  cbn [wrap obind].
  apply DecodeWithParsedTypes_canonical in Ed as [_ Hw].
  by rewrite NewStream_MapToRecords by by apply uTlvMap_wire.
Qed.

Lemma encodePayloadWithNextHop_errors_witness :
  (exists cause, FailedToDecodePayload ErrUnexpectedEOF = FailedToReadPayloadLength cause
     /\ ReadVarInt (hexBytes "050102") = Err cause)
  \/ (exists cause varInt rest,
        FailedToDecodePayload ErrUnexpectedEOF = FailedToDecodePayload cause
        /\ ReadVarInt (hexBytes "050102") = Ok (varInt, rest)
        /\ N.of_nat (length rest) < varInt)
  \/ (exists cause varInt rest,
        FailedToDecodePayload ErrUnexpectedEOF = DecodeWithParsedTypesFailed cause
        /\ ReadVarInt (hexBytes "050102") = Ok (varInt, rest)
        /\ DecodeWithParsedTypes (take (N.to_nat varInt) rest) = Err cause).
Proof.
  apply (encodePayloadWithNextHop_errors (hexBytes "050102") 7).
  by vm_compute.
Defined.

Lemma setNextHop_setNextHop buf buf' (l : list Record) :
  setNextHop buf' <$> (setNextHop buf <$> l) = setNextHop buf' <$> l.
Proof.
  rewrite <- list_fmap_compose. apply list_fmap_ext. intros _ [t v] _.
  unfold setNextHop. cbn. by case_decide.
Qed.

(** X8. Rewriting composes: when the output of the rewriter is framed
    again with its length and rewritten for another channel, the result is
    what rewriting the original payload for that channel gives. The last
    channel identifier wins and a second pass with the same one changes
    nothing. *)
Theorem encodePayloadWithNextHop_again payload channelId channelId' out trailing :
  encodePayloadWithNextHop payload channelId = Ok out ->
  N.of_nat (length out) <= maxAlloc ->
  encodePayloadWithNextHop (WriteVarInt (N.of_nat (length out)) ++ out ++ trailing) channelId'
  = encodePayloadWithNextHop payload channelId'.
Proof.
  rewrite (encodePayloadWithNextHop_parse payload channelId).
  destruct (parsePayload payload) as [m| |] eqn:Hp; [|done..].
  intros [= <-] Hlen.
  apply parsePayload_Ok in Hp as (inner & trailing0 & -> & Hlen0 & Hd).
  apply DecodeWithParsedTypes_Ok in Hd as (l & -> & Hs & Hw & ->).
  rewrite MapToRecords_uTlvMap in Hlen |- * by done.
  rewrite !encodePayloadWithNextHop_records;
    [by rewrite setNextHop_setNextHop | done.. | by apply setNextHop_sorted
    | by apply setNextHop_wire | done].
Qed.

Lemma encodePayloadWithNextHop_again_witness :
  encodePayloadWithNextHop
    (WriteVarInt (N.of_nat (length (hexBytes "0201aa060800000000000001020900")))
     ++ hexBytes "0201aa060800000000000001020900" ++ [xff]) 7
  = encodePayloadWithNextHop (hexBytes "0f0201aa060800000000000000010900ffee") 7.
Proof.
  apply (encodePayloadWithNextHop_again
           (hexBytes "0f0201aa060800000000000000010900ffee") 258 7
           (hexBytes "0201aa060800000000000001020900") [xff]).
  - by vm_compute.
  - by vm_compute.
Defined.

(** X9. The value written for the next-hop record is eight bytes long and
    read as a big-endian integer it is the channel identifier (as a 64-bit
    number). *)
Theorem encodeNextHop_round_trip channelId :
  length (encodeNextHop channelId) = 8%nat
  /\ Uint (encodeNextHop channelId) = channelId mod 2 ^ 64.
Proof.
  unfold encodeNextHop. split; [apply length_PutUint | apply (Uint_PutUint 8)].
Qed.

(** ** Resuming with a new onion *)

(** X10. Whenever [resumeWithOnion] answers, the resolution carries the
    correlation identifier of the event and is either a failure with code
    1007 or a continue with both a forward channel and the rewritten
    payload, the latter only when the payload was hexadecimal and the
    rewriter succeeded on it. It never answers with the unmodified
    continue. *)
Theorem resumeWithOnion_outcomes request interceptResult res :
  resumeWithOnion request interceptResult = Ok res ->
  Resolution_Correlationid res = Correlationid request
  /\ (Outcome res = HtlcResolution_Fail "1007"
      \/ exists payload newPayload,
           DecodeString (Payload (Onion request)) = (payload, None)
           /\ encodePayloadWithNextHop payload (channelId interceptResult) = Ok newPayload
           /\ Outcome res
              = HtlcResolution_Continue
                  (Some (EncodeToString (NewChanIDFromOutPoint (channelPoint interceptResult))))
                  (Some (EncodeToString newPayload))).
Proof.
  unfold resumeWithOnion.
  destruct (DecodeString (Payload (Onion request))) as [payload [e|]] eqn:Eh.
  - intros [= <-]. split; [done | by left].
  - destruct (encodePayloadWithNextHop _ _) as [newPayload|e|] eqn:Er; [| |done].
    + intros [= <-]. split; [done|]. right. by exists payload, newPayload.
    + intros [= <-]. split; [done | by left].
Qed.

Lemma resumeWithOnion_outcomes_witness :
  exists res,
    resumeWithOnion plain_event (always INTERCEPT_RESUME_WITH_ONION "" [] 0 0 0) = Ok res
    /\ Resolution_Correlationid res = Correlationid plain_event
    /\ (Outcome res = HtlcResolution_Fail "1007"
        \/ exists payload newPayload,
             DecodeString (Payload (Onion plain_event)) = (payload, None)
             /\ encodePayloadWithNextHop payload
                  (channelId (always INTERCEPT_RESUME_WITH_ONION "" [] 0 0 0)) = Ok newPayload
             /\ Outcome res
                = HtlcResolution_Continue
                    (Some (EncodeToString (NewChanIDFromOutPoint
                       (channelPoint (always INTERCEPT_RESUME_WITH_ONION "" [] 0 0 0)))))
                    (Some (EncodeToString newPayload))).
Proof.
  eexists. split; [by vm_compute|].
  apply (resumeWithOnion_outcomes plain_event (always INTERCEPT_RESUME_WITH_ONION "" [] 0 0 0)).
  by vm_compute.
Defined.

(** X11. From request to resolution: when the onion payload of the event
    is hexadecimal and parses, [resumeWithOnion] answers with a continue
    whose payload string decodes, as hexadecimal, without error to a
    record stream holding the parsed records with the value of the
    next-hop record, if present, replaced by the eight bytes of the
    decision's channel identifier. *)
Theorem resumeWithOnion_round_trip request interceptResult payload tlvMap :
  DecodeString (Payload (Onion request)) = (payload, None) ->
  parsePayload payload = Ok tlvMap ->
  exists forwardTo newPayloadStr newPayload,
    resumeWithOnion request interceptResult
    = Ok {| Resolution_Correlationid := Correlationid request;
            Outcome := HtlcResolution_Continue (Some forwardTo) (Some newPayloadStr) |}
    /\ DecodeString newPayloadStr = (newPayload, None)
    /\ DecodeWithParsedTypes newPayload
       = Ok (alter (fun _ => PutUint 8 (channelId interceptResult)) NextHopOnionType tlvMap).
Proof.
  intros Hh Hp. unfold resumeWithOnion. rewrite Hh, encodePayloadWithNextHop_parse, Hp.
  cbn [mbind outcome_bind obind].
  eexists _, _, _. split_and!; [done | apply DecodeString_EncodeToString |].
  apply parsePayload_Ok in Hp as (inner & trailing & _ & _ & Hd).
  apply DecodeWithParsedTypes_canonical in Hd as [_ Hw].
  rewrite <- uTlvMap_alter.
  by apply DecodeWithParsedTypes_MapToRecords, uTlvMap_wire.
Qed.

Lemma resumeWithOnion_round_trip_witness :
  exists forwardTo newPayloadStr newPayload,
    resumeWithOnion plain_event (always INTERCEPT_RESUME_WITH_ONION "" [] 0 0 0)
    = Ok {| Resolution_Correlationid := Correlationid plain_event;
            Outcome := HtlcResolution_Continue (Some forwardTo) (Some newPayloadStr) |}
    /\ DecodeString newPayloadStr = (newPayload, None)
    /\ DecodeWithParsedTypes newPayload
       = Ok (alter (fun _ => PutUint 8
                      (channelId (always INTERCEPT_RESUME_WITH_ONION "" [] 0 0 0)))
               NextHopOnionType {[2 := [xaa]; 6 := PutUint 8 1]}).
Proof.
  apply (resumeWithOnion_round_trip plain_event
           (always INTERCEPT_RESUME_WITH_ONION "" [] 0 0 0)
           (hexBytes "0d0201aa06080000000000000001") {[2 := [xaa]; 6 := PutUint 8 1]}).
  - by vm_compute.
  - by vm_compute.
Defined.

(** X12. Every failure message the mapper produces is a well-formed
    hexadecimal string of exactly two bytes, whatever the reason. *)
Theorem mapFailureCode_two_bytes original :
  exists b1 b2, DecodeString (mapFailureCode original) = ([b1; b2], None).
Proof. destruct original; eexists _, _; reflexivity. Qed.

Lemma xor8_0 a : xor8 a (uint8 0) = a.
Proof.
  unfold xor8. rewrite uint8_to_N. change (0 mod 256) with 0.
  by rewrite N.lxor_0_r, uint8_of_to_N.
Qed.

(** X13. The channel identifier derived from a channel point with a
    32-byte hash has 32 bytes, shares its first 30 with the hash, and is
    the hash itself when the output index is zero (or any multiple of
    65536). *)
Theorem NewChanIDFromOutPoint_spec op :
  length (Hash op) = 32%nat ->
  length (NewChanIDFromOutPoint op) = 32%nat
  /\ take 30 (NewChanIDFromOutPoint op) = take 30 (Hash op)
  /\ (Index op mod 65536 = 0 -> NewChanIDFromOutPoint op = Hash op).
Proof.
  intros Hlen. unfold NewChanIDFromOutPoint.
  rewrite take_app_length' by done.
  assert (length (zip_with xor8 (drop 30 (Hash op)) (PutUint 2 (Index op))) = 2%nat) as Hz.
  { rewrite length_zip_with, length_drop, length_PutUint, Hlen. lia. }
  split_and!.
  - rewrite length_app, length_take, Hz, Hlen. lia.
  - rewrite take_app_length'; [done|]. rewrite length_take, Hlen. lia.
  - intros Hi.
    assert (PutUint 2 (Index op) = [uint8 0; uint8 0]) as ->.
    { apply Uint_inj; [done|]. rewrite (Uint_PutUint 2).
      change (256 ^ N.of_nat 2) with 65536. rewrite Hi. reflexivity. }
    rewrite <- (take_drop 30 (Hash op)) at 3. f_equal.
    destruct (drop 30 (Hash op)) as [|a [|b [|c rest]]] eqn:Ed;
      apply (f_equal length) in Ed; rewrite length_drop, Hlen in Ed; try done.
    cbn. by rewrite !xor8_0.
Qed.

Lemma NewChanIDFromOutPoint_spec_witness :
  length (NewChanIDFromOutPoint {| Hash := replicate 32 x01; Index := 65536 |}) = 32%nat
  /\ take 30 (NewChanIDFromOutPoint {| Hash := replicate 32 x01; Index := 65536 |})
     = take 30 (Hash {| Hash := replicate 32 x01; Index := 65536 |})
  /\ (Index {| Hash := replicate 32 x01; Index := 65536 |} mod 65536 = 0 ->
      NewChanIDFromOutPoint {| Hash := replicate 32 x01; Index := 65536 |}
      = Hash {| Hash := replicate 32 x01; Index := 65536 |}).
Proof.
  apply (NewChanIDFromOutPoint_spec {| Hash := replicate 32 x01; Index := 65536 |}).
  reflexivity.
Defined.

(** ** The handler of one event *)

(** X14. On every path the handler of a live process sends at most two
    resolutions, each with the correlation identifier of its event, and it
    sends none only when it panics. *)
Theorem handler_sends intercept request nextHop s :
  crashed s = None ->
  exists new,
    sent (handler intercept request nextHop s) = sent s ++ new
    /\ (length new <= 2)%nat /\ Forall (answers request) new
    /\ (new = [] -> crashed (handler intercept request nextHop s) <> None).
Proof. apply handler_sent. Qed.

Lemma handler_sends_witness :
  exists new,
    sent (handler (always INTERCEPT_FAIL_HTLC_WITH_CODE) plain_event "<unknown>" one_in_flight)
    = sent one_in_flight ++ new
    /\ (length new <= 2)%nat /\ Forall (answers plain_event) new
    /\ (new = [] ->
        crashed (handler (always INTERCEPT_FAIL_HTLC_WITH_CODE) plain_event "<unknown>"
                   one_in_flight) <> None).
Proof.
  apply (handler_sends (always INTERCEPT_FAIL_HTLC_WITH_CODE) plain_event "<unknown>"
           one_in_flight).
  reflexivity.
Defined.

Lemma handler_decodable_eq intercept request nextHop s h :
  DecodeString (PaymentHash (Htlc request)) = (h, None) -> crashed s = None ->
  handler intercept request nextHop s
  = decide_and_send intercept request nextHop h s >> doneWg_Add (-1).
Proof.
  intros Hh Hs. unfold handler. rewrite Hh.
  assert (s >> decide_and_send intercept request nextHop h
          = decide_and_send intercept request nextHop h s) as ->
    by (unfold andThen; by rewrite Hs).
  done.
Qed.

(** What the handler of an event with a hexadecimal hash does when it
    does not panic. *)
Lemma handler_decodable intercept request nextHop s h :
  DecodeString (PaymentHash (Htlc request)) = (h, None) ->
  crashed s = None ->
  crashed (handler intercept request nextHop s) = None ->
  (0 < doneWg s)%Z
  /\ doneWg (handler intercept request nextHop s) = (doneWg s - 1)%Z
  /\ exists res,
       sent (handler intercept request nextHop s) = sent s ++ [res]
       /\ answers request res.
Proof.
  intros Hh Hs Hc.
  assert (crashed (decide_and_send intercept request nextHop h s) = None) as Hd.
  { rewrite (handler_decodable_eq _ _ _ _ _ Hh Hs) in Hc.
    destruct (crashed (decide_and_send _ _ _ _ s)) eqn:E; [|done].
    exfalso. revert Hc. apply crashed_andThen_doneWg_Add. by rewrite E. }
  assert ((0 < doneWg s)%Z
          /\ doneWg (handler intercept request nextHop s) = (doneWg s - 1)%Z) as [? ?].
  { rewrite (handler_decodable_eq _ _ _ _ _ Hh Hs) in Hc |- *.
    unfold andThen in Hc |- *; rewrite Hd in Hc |- *.
    unfold doneWg_Add, WaitGroup_Add in Hc |- *.
    rewrite doneWg_decide_and_send in Hc |- *.
    destruct (Z.ltb_spec (doneWg s + -1) 0); [done|]; cbn; lia. }
  split_and!; [done | done | by apply (handler_one_resolution _ _ _ _ h)].
Qed.

(** X15. The handler of an event whose payment hash is hexadecimal, when
    it ends without a panic, has called the decision function once, with
    the label it was given, the decoded hash, the forward amount, the
    outgoing CLTV value and the absolute expiry of the HTLC; it has sent
    one resolution with the correlation identifier of the event; and it
    has taken the in-flight counter, which was positive, down by one. *)
Theorem handler_accounting intercept request nextHop s h :
  DecodeString (PaymentHash (Htlc request)) = (h, None) ->
  crashed s = None ->
  crashed (handler intercept request nextHop s) = None ->
  (0 < doneWg s)%Z
  /\ doneWg (handler intercept request nextHop s) = (doneWg s - 1)%Z
  /\ (exists res,
        sent (handler intercept request nextHop s) = sent s ++ [res]
        /\ Resolution_Correlationid res = Correlationid request)
  /\ decided (handler intercept request nextHop s)
     = decided s ++ [{| call_nextHop := nextHop; call_paymentHash := h;
                        call_amount := ForwardMsat (Onion request);
                        call_cltv := OutgoingCltvValue (Onion request);
                        call_expiry := CltvExpiry (Htlc request) |}].
Proof.
  intros Hh Hs Hc.
  destruct (handler_decodable _ _ _ _ _ Hh Hs Hc) as (Hpos & Hd & Hres).
  split_and!; [done | done | done | by apply handler_calls].
Qed.

Lemma handler_accounting_witness :
  (0 < doneWg one_in_flight)%Z
  /\ doneWg (handler (always INTERCEPT_RESUME) plain_event "<unknown>" one_in_flight)
     = (doneWg one_in_flight - 1)%Z
  /\ (exists res,
        sent (handler (always INTERCEPT_RESUME) plain_event "<unknown>" one_in_flight)
        = sent one_in_flight ++ [res]
        /\ Resolution_Correlationid res = Correlationid plain_event)
  /\ decided (handler (always INTERCEPT_RESUME) plain_event "<unknown>" one_in_flight)
     = decided one_in_flight
       ++ [{| call_nextHop := "<unknown>"; call_paymentHash := hexBytes "00ff";
              call_amount := ForwardMsat (Onion plain_event);
              call_cltv := OutgoingCltvValue (Onion plain_event);
              call_expiry := CltvExpiry (Htlc plain_event) |}].
Proof.
  apply (handler_accounting (always INTERCEPT_RESUME) plain_event "<unknown>"
           one_in_flight (hexBytes "00ff")); by vm_compute.
Defined.

(** X16. A handler never touches the stop flag, the connection context,
    the readiness barrier, the local [inited] of the loop, the position of
    the loop or of [Stop], or the handlers still to run, whatever the
    event and the decision. *)
Theorem handler_frame intercept request nextHop s :
  stopRequested (handler intercept request nextHop s) = stopRequested s
  /\ cancelled (handler intercept request nextHop s) = cancelled s
  /\ initWg (handler intercept request nextHop s) = initWg s
  /\ inited (handler intercept request nextHop s) = inited s
  /\ loop (handler intercept request nextHop s) = loop s
  /\ stop (handler intercept request nextHop s) = stop s
  /\ pending (handler intercept request nextHop s) = pending s.
Proof. apply same_control_handler. Qed.

(** X17. The scan over the channels of a lookup stops at the first channel
    that has the local node at one end and returns the other end, the
    destination when the local node is the source; channels without the
    local node are skipped, and when there is none the label is left as it
    was. *)
Theorem scanChannels_first_match NodePubkey pre post nextHop :
  Forall (fun c => Source c <> NodePubkey /\ Destination c <> NodePubkey) pre ->
  (post = [] -> scanChannels NodePubkey (pre ++ post) nextHop = nextHop)
  /\ (forall c rest, post = c :: rest ->
        Source c = NodePubkey \/ Destination c = NodePubkey ->
        scanChannels NodePubkey (pre ++ post) nextHop
        = if String.eqb (Source c) NodePubkey then Destination c else Source c).
Proof.
  intros Hpre. split.
  - intros ->. rewrite app_nil_r.
    induction Hpre as [|c0 pre [H1 H2] _ IH]; [done|].
    cbn. destruct (String.eqb_spec (Source c0) NodePubkey); [done|].
    by destruct (String.eqb_spec (Destination c0) NodePubkey).
  - intros c rest -> Hc. induction Hpre as [|c0 pre [H1 H2] _ IH].
    + cbn. destruct (String.eqb_spec (Source c) NodePubkey); [done|].
      destruct (String.eqb_spec (Destination c) NodePubkey); [done|]. tauto.
    + cbn. destruct (String.eqb_spec (Source c0) NodePubkey); [done|].
      destruct (String.eqb_spec (Destination c0) NodePubkey); [done|]. exact IH.
Qed.

Lemma scanChannels_first_match_witness :
  scanChannels "02local"
    ([{| Source := "03a"; Destination := "03b" |}]
     ++ [{| Source := "03peer"; Destination := "02local" |};
         {| Source := "02local"; Destination := "03other" |}]) "<unknown>"
  = "03peer"%string.
Proof.
  refine (proj2 (scanChannels_first_match "02local"
                   [{| Source := "03a"; Destination := "03b" |}]
                   [{| Source := "03peer"; Destination := "02local" |};
                    {| Source := "02local"; Destination := "03other" |}] "<unknown>" _)
            _ _ eq_refl _).
  - repeat constructor; discriminate.
  - by right.
Defined.

(** ** The books of the in-flight counter *)

Section Accounting.
Variable intercept : string -> list byte -> N -> N -> N -> interceptResult.
Variable GetChannel : string -> list PeerChannel * option error.
Variable NodePubkey : string.

Abbreviation step_ := (step intercept GetChannel NodePubkey).
Abbreviation run_ := (run intercept GetChannel NodePubkey).

Lemma step_live s e s' : step_ s e = Some s' -> crashed s = None.
Proof. unfold step. by destruct (crashed s). Qed.



(** How a step moves the loop towards [Recv]: only after the barrier. *)
Lemma step_ready s e s' :
  step_ s e = Some s' ->
  (loop s = L_Recv -> inited s = true) ->
  (loop s' = L_Recv -> inited s' = true)
  /\ (is_delivery e = true -> loop s = L_Recv).
Proof.
  intros Hs. step_cases Hs.
  destruct e as [ok| |[request|]| |k| | |].
  6:{ destruct (pending s !! k) as [[request nextHop]|]; [|done].
      injection Hs as <-.
      pose proof (same_control_handler intercept request nextHop
                    (set_pending (delete k (pending s)) s))
        as (E1 & E2 & E3 & E4 & E5 & E6 & E7).
      rewrite E4, E5. cbn. done. }
  all: crush_step s Hs.
  all: try done.
  all: intuition congruence.
Qed.

Lemma step_stale tr s e s' :
  stale tr s -> step_ s e = Some s' -> stale (tr ++ [e]) s'.
Proof.
  intros (Hi & Hp & Hd & Hl & Hc) Hs. pose proof (step_live _ _ _ Hs) as Hlive.
  destruct Hc as [(_ & Hini & Hne)|Hc]; [|congruence].
  unfold stale. rewrite deliveries_app, Hd.
  step_cases Hs.
  destruct e as [ok| |[request|]| |k| | |].
  6:{ rewrite Hp in Hs. by rewrite lookup_nil in Hs. }
  all: crush_step s Hs.
  all: try (destruct Hl; discriminate).
  all: split_and!; try done; try (by left); try (by right).
  all: left; split_and!; try done.
  all: intros [Hin|Hin%list_elem_of_singleton]%elem_of_app; done.
Qed.

Lemma run_stale s0 tr s :
  stale [] s0 -> run_ s0 tr = Some s -> stale tr s.
Proof.
  intros H0. revert tr s.
  apply (run_ind intercept GetChannel NodePubkey stale); [done|].
  intros tr s e s' _ IH Hs. by eapply step_stale.
Qed.

End Accounting.





(** X20. The readiness barrier is released before the loop receives
    anything: in every run in which an event was delivered, the barrier
    counter is zero and the loop has set its [inited]. *)
Theorem ready_before_delivery intercept GetChannel NodePubkey tr s :
  run intercept GetChannel NodePubkey started tr = Some s ->
  deliveries tr <> [] ->
  initWg s = 0%Z /\ inited s = true.
Proof.
  intros Hr Hd.
  pose proof (run_consistent_started _ _ _ _ _ Hr) as (_ & _ & Hi & _).
  cut (inited s = true); [intros Hini; by rewrite Hi, Hini|].
  cut ((loop s = L_Recv \/ deliveries tr <> []) -> inited s = true); [tauto|].
  clear Hd Hi. revert tr s Hr.
  apply (run_ind intercept GetChannel NodePubkey
           (fun tr s => (loop s = L_Recv \/ deliveries tr <> []) -> inited s = true)).
  - cbn. intros [|]; done.
  - intros tr s e s' _ IH Hs Hor.
    destruct (step_ready _ _ _ _ _ _ Hs) as [Hl Hdl]; [auto|].
    destruct Hor as [Hor|Hor]; [auto|].
    rewrite deliveries_app in Hor.
    destruct (step_monotone _ _ _ _ _ _ Hs) as [Hm _].
    destruct (decide (deliveries tr = [])) as [Hnil|Hne]; [|auto].
    rewrite Hnil in Hor. cbn in Hor.
    apply Hm, IH. left. apply Hdl.
    destruct e as [| |[r|]| | | | |]; done.
Qed.

Lemma ready_before_delivery_witness :
  exists s,
    run (always INTERCEPT_RESUME) graph_fails "02local" started
      [Connect false; Connect true; Enter; Recv (Some plain_event)] = Some s
    /\ initWg s = 0%Z /\ inited s = true.
Proof.
  eexists. split; [vm_compute; reflexivity|].
  apply (ready_before_delivery (always INTERCEPT_RESUME) graph_fails "02local"
           [Connect false; Connect true; Enter; Recv (Some plain_event)]).
  - vm_compute. reflexivity.
  - discriminate.
Defined.

(** ** Starting again *)

Lemma Start_created : Start None created = Ok started.
Proof. reflexivity. Qed.

(** X21. [Start] on an interceptor whose readiness barrier was already
    released (as after a first run) does not re-arm it: the loop it starts
    receives no event and never returns; its first entry into the receive
    loop, like its exit on a cancelled context, panics on the negative
    barrier counter. *)
Theorem restart_panics intercept GetChannel NodePubkey s s0 tr s' :
  initWg s = 0%Z -> pending s = [] -> crashed s = None ->
  Start None s = Ok s0 ->
  run intercept GetChannel NodePubkey s0 tr = Some s' ->
  deliveries tr = []
  /\ (loop s' = L_Connect \/ loop s' = L_Receive)
  /\ (Enter ∈ tr -> crashed s' = Some "sync: negative WaitGroup counter"%string)
  /\ (forall s2, step intercept GetChannel NodePubkey s' Enter = Some s2 ->
        crashed s2 = Some "sync: negative WaitGroup counter"%string)
  /\ (forall ok s2, cancelled s' = true ->
        step intercept GetChannel NodePubkey s' (Connect ok) = Some s2 ->
        crashed s2 = Some "sync: negative WaitGroup counter"%string).
Proof.
  intros Hi Hp Hc [= <-] Hr.
  assert (stale [] (set_loop L_Connect (set_inited false (set_stop S_Idle
            (set_cancelled false (set_stopRequested false s)))))) as H0.
  { split_and!; try done; [by left|]. left. split_and!; try done. apply not_elem_of_nil. }
  pose proof (run_stale _ _ _ _ _ _ H0 Hr) as Hst.
  pose proof Hst as (Hi' & _ & Hd & Hl & Hcr).
  split_and!; [done | done | | |].
  - intros Hin. destruct Hcr as [(_ & _ & Hne)|]; done.
  - intros s2 Hs2.
    pose proof (step_stale _ _ _ _ _ _ _ Hst Hs2) as (_ & _ & _ & _ & [(_ & _ & Hne)|Hc2]);
      [|done].
    exfalso. apply Hne. apply elem_of_app. right. apply list_elem_of_here.
  - intros ok s2 Hcan Hs2.
    pose proof (step_live _ _ _ _ _ _ Hs2) as Hlive.
    destruct Hcr as [(_ & Hini & _)|Hcr]; [|congruence].
    step_cases Hs2. crush_step s' Hs2; done.
Qed.

Lemma restart_panics_witness :
  run (always INTERCEPT_RESUME) graph_fails "02local" started
    [Connect true; Enter; StopFlag; StopWaited; StopCancel; Recv None; Connect false;
     Drained] = Some stopped
  /\ exists s',
    run (always INTERCEPT_RESUME) graph_fails "02local"
      (set_loop L_Connect (set_inited false (set_stop S_Idle
         (set_cancelled false (set_stopRequested false stopped)))))
      [Connect true; Enter] = Some s'
    /\ deliveries [Connect true; Enter] = []
    /\ (loop s' = L_Connect \/ loop s' = L_Receive)
    /\ (Enter ∈ [Connect true; Enter] ->
        crashed s' = Some "sync: negative WaitGroup counter"%string)
    /\ (forall s2, step (always INTERCEPT_RESUME) graph_fails "02local" s' Enter = Some s2 ->
          crashed s2 = Some "sync: negative WaitGroup counter"%string)
    /\ (forall ok s2, cancelled s' = true ->
          step (always INTERCEPT_RESUME) graph_fails "02local" s' (Connect ok) = Some s2 ->
          crashed s2 = Some "sync: negative WaitGroup counter"%string).
Proof.
  split; [vm_compute; reflexivity|].
  eexists. split; [vm_compute; reflexivity|].
  apply (restart_panics (always INTERCEPT_RESUME) graph_fails "02local" stopped
           (set_loop L_Connect (set_inited false (set_stop S_Idle
              (set_cancelled false (set_stopRequested false stopped)))))
           [Connect true; Enter]).
  - reflexivity.
  - reflexivity.
  - reflexivity.
  - reflexivity.
  - vm_compute. reflexivity.
Defined.


(** ** What can panic *)

Lemma ReadFull_not_Panic n r p : ReadFull n r <> Panic p.
Proof. unfold ReadFull. by repeat case_match. Qed.

Lemma ReadVarInt_not_Panic r p : ReadVarInt r <> Panic p.
Proof. unfold ReadVarInt, readWide, ReadFull. by repeat case_match. Qed.






(** ** Leaving the loop *)

Lemma step_exit intercept GetChannel NodePubkey s e s' :
  consistent s ->
  (stopRequested s = true -> stop s <> S_Idle) ->
  (loop_exited s = true -> stopRequested s = true) ->
  step intercept GetChannel NodePubkey s e = Some s' ->
  (stopRequested s' = true -> stop s' <> S_Idle)
  /\ (loop_exited s' = true -> stopRequested s' = true).
Proof.
  intros (H1 & H2 & H3 & H4) Hf He Hs. step_cases Hs.
  destruct e as [ok| |[request|]| |k| | |].
  6:{ destruct (pending s !! k) as [[request nextHop]|]; [|done].
      injection Hs as <-.
      pose proof (same_control_handler intercept request nextHop
                    (set_pending (delete k (pending s)) s))
        as (E1 & E2 & E3 & E4 & E5 & E6 & E7).
      unfold loop_exited. rewrite E1, E5, E6. done. }
  all: crush_step s Hs.
  all: split; try done.
  all: intuition congruence.
Qed.

(** X23. Leaving the loop: [intercept] returns only after [Stop] has raised
    its flag. Failed opens and receive errors send it back to reconnect,
    whatever their number. *)
Theorem loop_exits_only_on_stop intercept GetChannel NodePubkey tr s :
  run intercept GetChannel NodePubkey started tr = Some s ->
  loop_exited s = true ->
  stopRequested s = true /\ StopFlag ∈ tr.
Proof.
  intros Hr Hex.
  assert ((stopRequested s = true -> stop s <> S_Idle)
          /\ (loop_exited s = true -> stopRequested s = true)) as [Hf He].
  { revert tr s Hr Hex.
    cut (forall tr s, run intercept GetChannel NodePubkey started tr = Some s ->
           (stopRequested s = true -> stop s <> S_Idle)
           /\ (loop_exited s = true -> stopRequested s = true)); [eauto|].
    apply (run_ind intercept GetChannel NodePubkey
             (fun tr s => (stopRequested s = true -> stop s <> S_Idle)
                          /\ (loop_exited s = true -> stopRequested s = true))).
    - done.
    - intros tr s e s' Hr [Hf He] Hs.
      eapply step_exit; [by eapply run_consistent_started | done | done | done]. }
  split; [auto|].
  pose proof (run_stop_history _ _ _ _ _ _ Hr) as Hh. cbn in Hh.
  apply list_elem_of_In. apply (filter_In is_stop_event StopFlag tr).
  rewrite <- Hh. specialize (Hf (He Hex)).
  destruct (stop s); [done|cbn; auto..].
Qed.

Lemma loop_exits_only_on_stop_witness :
  exists s,
    run (always INTERCEPT_RESUME) graph_fails "02local" started
      [Connect false; Connect true; Enter; Recv None; Connect true; Enter; StopFlag;
       Recv (Some plain_event); Enter] = Some s
    /\ loop_exited s = true
    /\ stopRequested s = true
    /\ StopFlag ∈ [Connect false; Connect true; Enter; Recv None; Connect true; Enter;
                   StopFlag; Recv (Some plain_event); Enter].
Proof.
  eexists. split; [vm_compute; reflexivity|]. split; [reflexivity|].
  apply (loop_exits_only_on_stop (always INTERCEPT_RESUME) graph_fails "02local").
  - vm_compute. reflexivity.
  - reflexivity.
Defined.

(** ** The panics of the rewriter *)

(** The decoder panics exactly at a record header that declares a length
    beyond [maxAlloc], reached through records in canonical order. *)
Lemma decode_Panic_inv rounds : forall r min overflow acc p,
  (length r < rounds)%nat ->
  decode rounds r min overflow acc = Panic p ->
  p = "makeslice: cap out of range"%string
  /\ exists l t len rest,
       r = Encode l ++ WriteVarInt t ++ WriteVarInt len ++ rest
       /\ checkCanonical (l ++ [(t, [])]) min overflow = true
       /\ Forall wire_record l /\ t < 2 ^ 64 /\ maxAlloc < len < 2 ^ 64.
Proof.
  induction rounds as [|n IH]; intros r min overflow acc p Hlen; [lia|].
  cbn [decode].
  destruct (ReadVarInt r) as [[t r1]|e|p1] eqn:Et;
    [| by destruct e | by apply ReadVarInt_not_Panic in Et].
  destruct (overflow || (t <? min)) eqn:Ec; [done|].
  destruct (ReadVarInt r1) as [[len r2]|e|p1] eqn:El;
    [| by destruct e | by apply ReadVarInt_not_Panic in El].
  pose proof (ReadVarInt_shorter _ _ _ Et) as Hs1.
  pose proof (ReadVarInt_shorter _ _ _ El) as Hs2.
  apply ReadVarInt_Ok in Et as [-> Ht], El as [-> Hl].
  destruct (N.ltb_spec maxAlloc len) as [Hbig|Hsmall].
  - intros [= <-]. split; [done|].
    exists [], t, len, r2. split_and!; try (done || lia).
    cbn [app checkCanonical typ fst]. by rewrite Ec.
  - destruct (ReadFull len r2) as [[b r3]|e|p1] eqn:Ev;
      [| done | by apply ReadFull_not_Panic in Ev].
    pose proof (ReadFull_shorter _ _ _ _ Ev) as Hs3.
    apply ReadFull_Ok in Ev as [-> <-].
    intros H. apply IH in H as (-> & l & t' & len' & rest & -> & Hc & Hw & Ht' & Hl');
      [|lia].
    split; [done|].
    exists ((t, b) :: l), t', len', rest. split_and!; try (done || lia).
    + rewrite Encode_cons. unfold encodeRecord. cbn [typ value fst snd].
      by rewrite <- !app_assoc.
    + cbn [app checkCanonical typ fst]. by rewrite Ec.
    + constructor; [by split | done].
Qed.

Lemma decode_oversized l : forall rounds t len rest min overflow acc,
  checkCanonical (l ++ [(t, [])]) min overflow = true ->
  Forall wire_record l -> t < 2 ^ 64 -> maxAlloc < len < 2 ^ 64 ->
  (length (Encode l ++ WriteVarInt t ++ WriteVarInt len ++ rest) < rounds)%nat ->
  decode rounds (Encode l ++ WriteVarInt t ++ WriteVarInt len ++ rest) min overflow acc
  = Panic "makeslice: cap out of range".
Proof.
  induction l as [|[t0 b] l IH]; intros [|n] t len rest min overflow acc Hc Hw Ht Hl Hr;
    try lia.
  - cbn [app checkCanonical typ fst] in Hc.
    destruct (overflow || (t <? min)) eqn:Ec; [done|].
    cbn [Encode flat_map app decode].
    rewrite ReadVarInt_WriteVarInt by done. rewrite Ec.
    rewrite ReadVarInt_WriteVarInt by lia.
    by destruct (N.ltb_spec maxAlloc len); [|lia].
  - apply Forall_cons in Hw as [[Ht0 Hb] Hw]. cbn [typ value fst snd] in Ht0, Hb.
    cbn [app checkCanonical typ fst] in Hc.
    destruct (overflow || (t0 <? min)) eqn:Ec; [done|].
    rewrite Encode_cons in Hr |- *. unfold encodeRecord in Hr |- *.
    cbn [typ value fst snd] in Hr |- *. rewrite !length_app in Hr.
    cbn [decode]. rewrite <- !app_assoc.
    rewrite ReadVarInt_WriteVarInt by done. rewrite Ec.
    rewrite ReadVarInt_WriteVarInt by (eapply N.le_lt_trans; [exact Hb | done]).
    destruct (N.ltb_spec maxAlloc (N.of_nat (length b))); [lia|].
    rewrite ReadFull_app.
    pose proof (length_WriteVarInt_pos t0).
    apply IH; try done. rewrite !length_app. lia.
Qed.

Lemma DecodeWithParsedTypes_Panic inner p :
  DecodeWithParsedTypes inner = Panic p <->
  oversized_record inner /\ p = "makeslice: cap out of range"%string.
Proof.
  unfold DecodeWithParsedTypes, oversized_record. split.
  - intros H. apply decode_Panic_inv in H as (-> & l & t & len & rest & -> & Hc & Hw & Ht & Hl);
      [|lia].
    split; [|done]. exists l, t, len, rest.
    split; [done|]. split; [|done].
    apply checkCanonical_sorted in Hc as (Hs & _ & _); [done|].
    apply Forall_app. split; [done|]. apply Forall_singleton.
    split; [done|]. cbn. unfold maxAlloc. lia.
  - intros [(l & t & len & rest & -> & Hs & Hw & Ht & Hl) ->].
    apply decode_oversized; try done; [|lia].
    apply sorted_checkCanonical; [done| |apply Forall_forall; intros; lia].
    apply Forall_app. split; [|by repeat constructor].
    eapply Forall_impl; [exact Hw|]. by intros rec [? _].
Qed.

(** X24. The rewriter panics in exactly two cases: the leading length is
    beyond [maxAlloc] (the buffer of line 270 cannot be made), or the inner
    payload, read in full, holds a record header in canonical position
    that declares a length beyond [maxAlloc] (the decoder cannot make the
    value buffer). The lengths are only declared: no such number of bytes
    has to follow. *)
Theorem encodePayloadWithNextHop_Panic_iff payload channelId p :
  encodePayloadWithNextHop payload channelId = Panic p <->
  (exists varInt rest,
     payload = WriteVarInt varInt ++ rest /\ maxAlloc < varInt < 2 ^ 64
     /\ p = "makeslice: len out of range"%string)
  \/ (exists inner trailing,
        payload = WriteVarInt (N.of_nat (length inner)) ++ inner ++ trailing
        /\ N.of_nat (length inner) <= maxAlloc
        /\ oversized_record inner
        /\ p = "makeslice: cap out of range"%string).
Proof.
  rewrite encodePayloadWithNextHop_parse.
  unfold parsePayload, mbind, outcome_bind. split.
  - destruct (ReadVarInt payload) as [[varInt bufReader]|e|p1] eqn:Ev;
      [| done | by apply ReadVarInt_not_Panic in Ev].
    apply ReadVarInt_Ok in Ev as [-> Hv].
    cbn [wrap obind]. unfold make.
    destruct (N.ltb_spec maxAlloc varInt) as [Hbig|Hsmall].
    { cbn. intros [= <-]. left. exists varInt, bufReader. split_and!; done || lia. }
    cbn [obind].
    destruct (ReadFull varInt bufReader) as [[inner trailing]|e|p1] eqn:Er;
      [| done | by apply ReadFull_not_Panic in Er].
    apply ReadFull_Ok in Er as [-> <-].
    cbn [wrap obind].
    destruct (DecodeWithParsedTypes inner) as [m|e|p1] eqn:Ed; [done | done |].
    cbn. intros [= <-]. right.
    apply DecodeWithParsedTypes_Panic in Ed as [Ho ->].
    by exists inner, trailing.
  - intros [(varInt & rest & -> & Hv & ->)|(inner & trailing & -> & Hlen & Ho & ->)].
    + rewrite ReadVarInt_WriteVarInt by lia. cbn [wrap obind]. unfold make.
      by destruct (N.ltb_spec maxAlloc varInt); [|lia].
    + rewrite ReadVarInt_WriteVarInt by (eapply N.le_lt_trans; [exact Hlen | done]).
      cbn [wrap obind]. apply make_Ok in Hlen as ->. cbn [obind].
      rewrite ReadFull_app. cbn [wrap obind].
      assert (DecodeWithParsedTypes inner = Panic "makeslice: cap out of range") as ->
        by by apply DecodeWithParsedTypes_Panic.
      done.
Qed.

Lemma encodePayloadWithNextHop_Panic_iff_witness :
  encodePayloadWithNextHop (hexBytes "ff0001000000000001") 258
  = Panic "makeslice: len out of range"
  /\ encodePayloadWithNextHop (hexBytes "0d0201aa06ff0001000000000001") 258
     = Panic "makeslice: cap out of range".
Proof.
  split.
  - apply (encodePayloadWithNextHop_Panic_iff (hexBytes "ff0001000000000001") 258).
    left. exists (2 ^ 48 + 1), []. split_and!; [by vm_compute | by vm_compute | by vm_compute | done].
  - apply (encodePayloadWithNextHop_Panic_iff (hexBytes "0d0201aa06ff0001000000000001") 258).
    right. exists (hexBytes "0201aa06ff0001000000000001"), [].
    split_and!; [by vm_compute | by vm_compute | | done].
    exists [(2, [xaa])], 6, (2 ^ 48 + 1), [].
    split_and!; [by vm_compute | | | by vm_compute | by vm_compute | by vm_compute].
    + repeat constructor; try by vm_compute.
    + repeat constructor; try by vm_compute.
Defined.
